(** * nodeEventStore: the commit protocol and the in-memory storage

    A shallow embedding of [lib/eventStore.js] (Store, EventStream, Event,
    Snapshot) and of [lib/storage/inMemory/storage.js] (Storage), with the
    properties of the commit protocol, the snapshot lookup and the event log
    proved over it.

    Conventions of the embedding.
    - Event objects are mutated in place and shared between the EventStream,
      the storage and the dispatcher queue, so they live in a heap and the
      arrays hold references ([loc]).
    - JS numbers are integers ([Z]); [null] and [undefined] are [None] where a
      field can hold them.
    - A JS object used as a dictionary is a [gmap] of its own properties; a
      lookup that finds no own property goes on to [Object.prototype]
      ([Js.get]).
    - A call ends in [callback(err)], in [callback(null, result)] or in an
      exception ([Thrown]); revisions are counted in [Z], which agrees with
      the numbers of the code up to 2^53.
    - A callback is modelled by the list of calls it receives, in order.
    - The order in which [for ... in] visits the streams of a dictionary is
      not kept by a [gmap]; what is proved of [getAllEvents] and
      [getEventRange] takes the visit as a parameter, and of
      [getUndispatchedEvents] only which events the result holds.
    - A call that passes the callback in the place of [maxRev] is the call
      with [maxRev = -1]. *)

From Stdlib Require Import ZArith Lia.
From stdpp Require Import base option list strings gmap fin_maps pretty.
From stdpp Require Import sorting.

Local Open Scope Z_scope.

(** ** JavaScript values and built-ins used by the sources *)
Module Js.

(** The values a caller can hand over as payload, header or snapshot data.
    An object is opaque and identified by a number. *)
Inductive value : Type :=
| VUndefined
| VNull
| VBool (b : bool)
| VNum (z : Z)
| VStr (s : string)
| VObj (o : nat).

(** ToBoolean. *)
Definition truthy (v : value) : bool :=
  match v with
  | VUndefined | VNull => false
  | VBool b => b
  | VNum z => negb (z =? 0)
  | VStr s => negb (String.eqb s "")
  | VObj _ => true
  end.

(** [v || null]. *)
Definition or_null (v : value) : value :=
  if truthy v then v else VNull.

(** [s || null] for a string. *)
Definition str_or_null (s : string) : option string :=
  if String.eqb s "" then None else Some s.

(** The property key a string-or-null value is converted to. *)
Definition to_key (k : option string) : string :=
  match k with
  | Some s => s
  | None => "null"
  end.

(** ToNumber on a number-or-null value: [null] converts to 0. *)
Definition to_number (n : option Z) : Z :=
  match n with
  | Some z => z
  | None => 0
  end.

(** [a > b] on number-or-null values. *)
Definition gt (a b : option Z) : bool := to_number b <? to_number a.

(** The clamping of a relative index that [Array.prototype.slice] applies
    to both its arguments. *)
Definition clamp (len i : Z) : Z :=
  if i <? 0 then Z.max (len + i) 0 else Z.min i len.

(** [arr.slice(start, stop)]; [stop = None] is the one-argument call. *)
Definition slice {A : Type} (start : Z) (stop : option Z) (arr : list A)
  : list A :=
  let len := Z.of_nat (length arr) in
  let k := clamp len start in
  let final := match stop with
               | None => len
               | Some e => clamp len e
               end in
  take (Z.to_nat (final - k)) (drop (Z.to_nat k) arr).

(** The properties every object inherits from [Object.prototype], each
    with the [length] of its value: the arity for a function, [None] for
    [__proto__], whose value is [Object.prototype] itself and has no
    [length]. *)
Definition objectPrototype : list (string * option Z) :=
  [("constructor", Some 1); ("toString", Some 0);
   ("toLocaleString", Some 0); ("valueOf", Some 0);
   ("hasOwnProperty", Some 1); ("isPrototypeOf", Some 1);
   ("propertyIsEnumerable", Some 1); ("__defineGetter__", Some 2);
   ("__defineSetter__", Some 2); ("__lookupGetter__", Some 1);
   ("__lookupSetter__", Some 1); ("__proto__", None)].

(** The inherited property of that name, if there is one. *)
Definition inherited (k : string) : option (option Z) :=
  (list_to_map objectPrototype : gmap string (option Z)) !! k.

(** What [obj[k]] finds: an own property, else an inherited one, else
    nothing ([undefined]). *)
Inductive found (A : Type) : Type :=
| Own (a : A)
| Inherited (len : option Z)
| Missing.
Arguments Own {A} a.
Arguments Inherited {A} len.
Arguments Missing {A}.

Definition get {A : Type} (obj : gmap string A) (k : string) : found A :=
  match obj !! k with
  | Some a => Own a
  | None =>
      match inherited k with
      | Some len => Inherited len
      | None => Missing
      end
  end.

(** The lookup of [k] in [obj] does not end at [Object.prototype]: [k] is
    an own property, or no property at all. *)
Definition ownOrAbsent {A : Type} (obj : gmap string A) (k : string)
  : Prop :=
  is_Some (obj !! k) \/ inherited k = None.

(** The number up to which counting by one is exact. *)
Definition maxExact : Z := 2 ^ 53.

(** The message of the error that a call on a value without that method,
    or a property read on [undefined], throws. *)
Definition typeError : string := "TypeError".

(** [arr.sort(compare)]: in the result [a] stands before [b] only when
    [compare(a, b) <= 0] allows it. The standard leaves the algorithm
    open; a stable merge sort stands for it here, and the properties
    proved of a sorted array use only that the result is a permutation in
    the order of the comparator. *)
Definition sort {A : Type} (compare : A -> A -> Z) (arr : list A) : list A :=
  @merge_sort A (fun a b => compare a b <= 0)
              (fun a b => decide (compare a b <= 0)) arr.

End Js.

(** ** Data model *)

(** A reference to an Event object. *)
Abbreviation loc := nat (only parsing).

(** [Event] of eventStore.js. *)
Record Event : Type := mkEvent {
  streamId : option string;
  streamRevision : option Z;
  commitId : option string;
  commitSequence : option Z;
  commitStamp : option Z;
  header : Js.value;
  dispatched : bool;
  payload : Js.value
}.

(** [new Event(streamId, event)]. *)
Definition newEvent (sid : string) (event : Js.value) : Event :=
  {| streamId := Js.str_or_null sid;
     streamRevision := None;
     commitId := None;
     commitSequence := None;
     commitStamp := None;
     header := Js.VNull;
     dispatched := false;
     payload := Js.or_null event |}.

#[global] Instance Event_inhabited : Inhabited Event :=
  populate (newEvent "" Js.VUndefined).

(** The heap of Event objects; a new object takes the next free reference. *)
Abbreviation heap := (list Event) (only parsing).

Definition alloc (ev : Event) (h : heap) : loc * heap :=
  (length h, h ++ [ev]).

(** [Snapshot] of eventStore.js; the fields are prefixed where the name is
    taken by [Event]. [revision] is [None] when the caller passed
    [undefined]. *)
Record Snapshot : Type := mkSnapshot {
  snap_id : option string;
  snap_streamId : string;
  revision : option Z;
  data : Js.value
}.

(** [EventStream] of eventStore.js, without the back reference to the
    store. *)
Record EventStream : Type := mkEventStream {
  es_streamId : string;
  events : list loc;
  uncommittedEvents : list loc;
  lastRevision : Z
}.

(** [new EventStream(store, streamId, events)]. *)
Definition newEventStream (sid : string) (evts : list loc) : EventStream :=
  {| es_streamId := sid;
     events := evts;
     uncommittedEvents := [];
     lastRevision := -1 |}.

(** What a call ends in: [callback(err)], [callback(null, result)], or an
    exception thrown, in which case the callback is not called. In the list
    of the calls a callback received, [Thrown] stands last and marks the
    exception that left the operation. *)
Inductive reply (A : Type) : Type :=
| Err (e : string)
| Ok (a : A)
| Thrown (e : string).
Arguments Err {A} e.
Arguments Ok {A} a.
Arguments Thrown {A} e.

(** What [getSnapshot] hands to its callback. *)
Inductive snapval : Type :=
| SnapUndefined
| SnapEmpty
| SnapOf (s : Snapshot).

(** ** The in-memory storage (storage.js) *)
Module InMemory.

(** [store] and [snapshots] are the two dictionaries of the source.
    [uuids] counts the identifiers drawn so far. *)
Record Storage : Type := mkStorage {
  store : gmap string (list loc);
  snapshots : gmap string (list Snapshot);
  uuids : nat
}.

(** [new Storage(options, callback)]. *)
Definition createStorage : Storage :=
  {| store := ∅; snapshots := ∅; uuids := O |}.

(** Modelled from the spec: [./uuid] is not among the sources; [getId]
    returns "a fresh unique identifier", here the decimal numeral of the
    number of identifiers drawn before. *)
Definition uuid (n : nat) : string := pretty n.

(** For a streamId that names an inherited property and no own one,
    [this.store[streamId]] is the inherited value: the log is not
    initialised and [.concat] is no method of that value. *)
Definition addEvents (evts : option (list loc)) (h : heap) (s : Storage)
  : Storage * reply unit :=
  match evts with
  | None | Some [] => (s, Ok tt)
  | Some ((e0 :: _) as batch) =>
      let k := Js.to_key (streamId (h !!! e0)) in
      match Js.get (store s) k with
      | Js.Inherited _ => (s, Thrown Js.typeError)
      | Js.Own _ | Js.Missing =>
          let st1 := match store s !! k with
                     | None => <[k := []]> (store s)
                     | Some _ => store s
                     end in
          let st2 := <[k := (st1 !!! k) ++ batch]> st1 in
          ({| store := st2; snapshots := snapshots s; uuids := uuids s |},
           Ok tt)
      end
  end.

(** On an inherited value [.push] is no method. *)
Definition addSnapshot (snap : Snapshot) (s : Storage)
  : Storage * reply unit :=
  let k := snap_streamId snap in
  match Js.get (snapshots s) k with
  | Js.Inherited _ => (s, Thrown Js.typeError)
  | Js.Own _ | Js.Missing =>
      let sn1 := match snapshots s !! k with
                 | None => <[k := []]> (snapshots s)
                 | Some _ => snapshots s
                 end in
      let sn2 := <[k := (sn1 !!! k) ++ [snap]]> sn1 in
      ({| store := store s; snapshots := sn2; uuids := uuids s |}, Ok tt)
  end.

(** On an inherited value [.slice] is no method. *)
Definition getEvents (sid : string) (minRev maxRev : Z) (s : Storage)
  : reply (list loc) :=
  match Js.get (store s) sid with
  | Js.Missing => Ok []
  | Js.Inherited _ => Thrown Js.typeError
  | Js.Own log =>
      if maxRev =? -1 then Ok (Js.slice minRev None log)
      else Ok (Js.slice minRev (Some maxRev) log)
  end.

(** [snaps[i].revision <= maxRev]; the comparison with [undefined] is
    false. *)
Definition upTo (maxRev : Z) (snap : Snapshot) : bool :=
  match revision snap with
  | Some r => r <=? maxRev
  | None => false
  end.

(** The loop [for (var i = snaps.length - 1; i >= 0; i--)] of
    [getSnapshot], entered with [n = snaps.length]; [None] when the loop
    runs out without a hit. *)
Fixpoint scanSnapshots (snaps : list Snapshot) (maxRev : Z) (n : nat)
  : option Snapshot :=
  match n with
  | O => None
  | S i =>
      match snaps !! i with
      | Some snap =>
          if upTo maxRev snap then Some snap
          else scanSnapshots snaps maxRev i
      | None => scanSnapshots snaps maxRev i
      end
  end.

(** [None] when the callback is never called. An inherited value has no
    element at any index: with [maxRev = -1] the callback receives
    [undefined]; otherwise the loop starts at its [length - 1], where the
    read of [.revision] on [undefined] throws, and is not entered for a
    length of 0 or none. *)
Definition getSnapshot (sid : string) (maxRev : Z) (s : Storage)
  : option (reply snapval) :=
  match Js.get (snapshots s) sid with
  | Js.Missing => Some (Ok SnapEmpty)
  | Js.Inherited len =>
      if maxRev =? -1 then Some (Ok SnapUndefined)
      else
        match len with
        | Some n => if 1 <=? n then Some (Thrown Js.typeError) else None
        | None => None
        end
  | Js.Own snaps =>
      if maxRev =? -1 then
        match snaps !! (length snaps - 1)%nat with
        | Some snap => Some (Ok (SnapOf snap))
        | None => Some (Ok SnapUndefined)
        end
      else
        match scanSnapshots snaps maxRev (length snaps) with
        | Some snap => Some (Ok (SnapOf snap))
        | None => None
        end
  end.

(** The two nested [for ... in] loops; the order in which the streams are
    visited is the enumeration order of the dictionary. *)
Definition getUndispatchedEvents (h : heap) (s : Storage)
  : reply (list loc) :=
  Ok (mbind (M := list)
        (fun kv => filter (fun l => dispatched (h !!! l) = false) kv.2)
        (map_to_list (store s))).

(** [evt.dispatched = true]. *)
Definition markDispatched (ev : Event) : Event :=
  {| streamId := streamId ev;
     streamRevision := streamRevision ev;
     commitId := commitId ev;
     commitSequence := commitSequence ev;
     commitStamp := commitStamp ev;
     header := header ev;
     dispatched := true;
     payload := payload ev |}.

Definition setEventToDispatched (evt : loc) (h : heap) : heap :=
  <[evt := markDispatched (h !!! evt)]> h.

Definition getId (s : Storage) : Storage * reply string :=
  ({| store := store s; snapshots := snapshots s; uuids := S (uuids s) |},
   Ok (uuid (uuids s))).

(** The comparator of [getAllEvents] and [getEventRange]:
    [a.commitStamp - b.commitStamp], a [null] stamp counting as 0. *)
Definition byCommitStamp (h : heap) (a b : loc) : Z :=
  Js.to_number (commitStamp (h !!! a)) - Js.to_number (commitStamp (h !!! b)).

(** [getAllEvents], with the streams of [this.store] in the order in which
    [for (var i in this.store)] visits them. *)
Definition getAllEventsIn (visited : list (string * list loc)) (h : heap)
  : reply (list loc) :=
  Ok (Js.sort (byCommitStamp h)
              (foldl (fun evts kv => evts ++ kv.2) [] visited)).

Definition getAllEvents (h : heap) (s : Storage) : reply (list loc) :=
  getAllEventsIn (map_to_list (store s)) h.

(** The loop of [getEventRange]: the logs are concatenated until
    [events.length >= index + amount], where the loop is left. *)
Fixpoint gatherEvents (visited : list (string * list loc)) (evts : list loc)
    (wanted : Z) : list loc :=
  match visited with
  | [] => evts
  | kv :: rest =>
      let evts' := evts ++ kv.2 in
      if wanted <=? Z.of_nat (length evts') then evts'
      else gatherEvents rest evts' wanted
  end.

(** [getEventRange], with the streams in the order of the visit. *)
Definition getEventRangeIn (visited : list (string * list loc))
    (index amount : Z) (h : heap) : reply (list loc) :=
  Ok (Js.sort (byCommitStamp h)
              (Js.slice index (Some (index + amount))
                        (gatherEvents visited [] (index + amount)))).

Definition getEventRange (index amount : Z) (h : heap) (s : Storage)
  : reply (list loc) :=
  getEventRangeIn (map_to_list (store s)) index amount h.

End InMemory.

(** ** The storage interface (interfaces.IStorage)

    The operations the Store calls on whatever module was injected with
    [use]. Each returns what it hands to its callback; [getSnapshot] may
    leave its callback uncalled ([None]). *)
Class IStorage (St : Type) : Type := {
  addEvents : option (list loc) -> heap -> St -> St * reply unit;
  addSnapshot : Snapshot -> St -> St * reply unit;
  getEvents : string -> Z -> Z -> St -> reply (list loc);
  getSnapshot : string -> Z -> St -> option (reply snapval);
  getId : St -> St * reply string
}.

#[global] Instance inMemoryStorage : IStorage InMemory.Storage := {
  addEvents := InMemory.addEvents;
  addSnapshot := InMemory.addSnapshot;
  getEvents := InMemory.getEvents;
  getSnapshot := InMemory.getSnapshot;
  getId := InMemory.getId
}.

(** ** EventStream *)

(** The body of the loop of [currentRevision]: the running maximum [rev] is
    replaced by the [streamRevision] of the event when that compares
    greater. *)
Definition raiseRevision (h : heap) (rev : option Z) (l : loc) : option Z :=
  let r := streamRevision (h !!! l) in
  if Js.gt r rev then r else rev.

(** [currentRevision]: the loop runs over [events], from [lastRevision]. *)
Definition currentRevision (h : heap) (es : EventStream) : option Z :=
  foldl (raiseRevision h) (Some (lastRevision es)) (events es).

(** [addEvent]: a new Event object is pushed on [uncommittedEvents]. *)
Definition addEvent (event : Js.value) (es : EventStream) (h : heap)
  : EventStream * heap :=
  let '(l, h') := alloc (newEvent (es_streamId es) event) h in
  ({| es_streamId := es_streamId es;
      events := events es;
      uncommittedEvents := uncommittedEvents es ++ [l];
      lastRevision := lastRevision es |}, h').

(** ** Store (eventStore.js) *)

(** Modelled from the spec: [./eventDispatcher] is not among the sources;
    [addUndispatchedEvents(batch)] is "an enqueue entry point ... appended
    in order" on the dispatcher's in-memory FIFO queue. *)
Definition addUndispatchedEvents (batch queue : list loc) : list loc :=
  queue ++ batch.

(** The state a Store operation runs in: the heap of Event objects, the
    injected storage ([None] before [use]), the queue of the dispatcher
    that [start] created, and the number of times the clock has been
    read. *)
Record World (St : Type) : Type := mkWorld {
  objects : heap;
  storage : option St;
  dispatcher : list loc;
  clockReads : nat
}.
Arguments mkWorld {St} _ _ _ _.
Arguments objects {St} _.
Arguments storage {St} _.
Arguments dispatcher {St} _.
Arguments clockReads {St} _.

(** The message of the error [hasConfigurationErrors] creates. *)
Definition configurationError : string :=
  "Configure EventStore to use a storage implementation.".

(** The assignments of the commit loop to one event. *)
Definition seal (id : string) (i stamp rev : Z) (ev : Event) : Event :=
  {| streamId := streamId ev;
     streamRevision := Some rev;
     commitId := Some id;
     commitSequence := Some i;
     commitStamp := Some stamp;
     header := header ev;
     dispatched := dispatched ev;
     payload := payload ev |}.

Section Store.

Context {St : Type} `{IStorage St}.

(** [new Date()]: the reading of the wall clock at its n-th read. *)
Variable now : nat -> Z.

(** The loop of [commitEvents] from index [i] on: [currentRevision] is the
    running counter, [reads] the number of clock reads so far. *)
Fixpoint commitLoop (id : string) (batch : list loc) (i : Z)
    (currentRevision : option Z) (h : heap) (reads : nat) : heap * nat :=
  match batch with
  | [] => (h, reads)
  | l :: rest =>
      let stamp := now reads in
      let rev := Js.to_number currentRevision + 1 in
      commitLoop id rest (i + 1) (Some rev)
                 (<[l := seal id i stamp rev (h !!! l)]> h) (S reads)
  end.

(** [commit(eventstream, callback)]. The result is the world and the
    EventStream object after the call and the calls the callback received.
    The storage is taken to call back before it returns, as the in-memory
    one does, and the last task of [async.waterfall] to be handed the final
    handler itself (async up to 0.2), so each [callback(...)] of
    [commitEvents] reaches the caller. An exception of [addEvents] leaves
    [commitEvents] behind the loop, before the batch is queued and
    moved. *)
Definition commit (es : EventStream) (w : World St)
  : World St * EventStream * list (reply EventStream) :=
  match storage w with
  | None => (w, es, [Err configurationError])
  | Some st =>
      match getId st with
      | (st1, Err e) =>
          (mkWorld (objects w) (Some st1) (dispatcher w) (clockReads w),
           es, [Err e])
      | (st1, Thrown e) =>
          (mkWorld (objects w) (Some st1) (dispatcher w) (clockReads w),
           es, [Thrown e])
      | (st1, Ok id) =>
          let batch := uncommittedEvents es in
          let '(h1, reads1) :=
            commitLoop id batch 0 (currentRevision (objects w) es)
                       (objects w) (clockReads w) in
          let '(st2, added) := addEvents (Some batch) h1 st1 in
          let queue := addUndispatchedEvents batch (dispatcher w) in
          let es' := {| es_streamId := es_streamId es;
                        events := events es ++ batch;
                        uncommittedEvents := [];
                        lastRevision := lastRevision es |} in
          match added with
          | Thrown e =>
              (mkWorld h1 (Some st2) (dispatcher w) reads1, es, [Thrown e])
          | Err e =>
              (mkWorld h1 (Some st2) queue reads1, es', [Err e; Ok es'])
          | Ok _ =>
              (mkWorld h1 (Some st2) queue reads1, es', [Ok es'])
          end
      end
  end.

(** [getEventStream(streamId, revMin, revMax, callback)]. *)
Definition getEventStream (sid : string) (revMin revMax : Z) (w : World St)
  : reply EventStream :=
  match storage w with
  | None => Err configurationError
  | Some st =>
      match getEvents sid revMin revMax st with
      | Err e => Err e
      | Thrown e => Thrown e
      | Ok evts => Ok (newEventStream sid evts)
      end
  end.

(** The revision the event load of [getFromSnapshot] starts at. *)
Definition startRevision (snap : snapval) : Z :=
  match snap with
  | SnapOf s =>
      match revision s with
      | Some r => r + 1
      | None => 0
      end
  | SnapEmpty | SnapUndefined => 0
  end.

(** [getFromSnapshot(streamId, maxRev, callback)]: the calls the callback
    receives; [callback(null, snapshot, eventStream)] carries the pair,
    with [None] for an undefined [eventStream]. After [callback(err)] the
    handler of [getEventStream] goes on to [callback(null)], which reaches
    the caller under the same reading of [async.waterfall] as in
    [commit]. *)
Definition getFromSnapshot (sid : string) (maxRev : Z) (w : World St)
  : list (reply (snapval * option EventStream)) :=
  match storage w with
  | None => [Err configurationError]
  | Some st =>
      match getSnapshot sid maxRev st with
      | None => []
      | Some (Err e) => [Err e]
      | Some (Thrown e) => [Thrown e]
      | Some (Ok snap) =>
          match getEventStream sid (startRevision snap) maxRev w with
          | Err e => [Err e; Ok (snap, None)]
          | Thrown e => [Thrown e]
          | Ok stream => [Ok (snap, Some stream)]
          end
      end
  end.

(** [createSnapshot(streamId, revision, data, callback)]. *)
Definition createSnapshot (sid : string) (rev : option Z) (d : Js.value)
    (w : World St) : World St * list (reply unit) :=
  match storage w with
  | None => (w, [Err configurationError])
  | Some st =>
      match getId st with
      | (st1, Err e) =>
          (mkWorld (objects w) (Some st1) (dispatcher w) (clockReads w),
           [Err e])
      | (st1, Thrown e) =>
          (mkWorld (objects w) (Some st1) (dispatcher w) (clockReads w),
           [Thrown e])
      | (st1, Ok id) =>
          let '(st2, r) := addSnapshot (mkSnapshot (Some id) sid rev d) st1 in
          (mkWorld (objects w) (Some st2) (dispatcher w) (clockReads w), [r])
      end
  end.

End Store.

(** * Vocabulary of the properties *)

(** ** Positions of a log

    "ordered events with minRev <= index < maxRev, using zero-based
    positional indexing over the stream's event log"; "maxRev = -1 means to
    end". *)

(** The position [i] lies between the bounds. *)
Definition inRange (minRev maxRev : Z) (i : nat) : Prop :=
  minRev <= Z.of_nat i /\ (maxRev = -1 \/ Z.of_nat i < maxRev).

#[global] Instance inRange_dec minRev maxRev i :
  Decision (inRange minRev maxRev i).
Proof. unfold inRange. apply _. Defined.

(** The elements of [log] whose position, counted from [off], lies between
    the bounds. *)
Definition positionsFrom {A : Type} (off : nat) (minRev maxRev : Z)
    (log : list A) : list A :=
  (filter (fun ix => inRange minRev maxRev ix.1)
          (imap (fun i x => ((off + i)%nat, x)) log)).*2.

Definition positionsBetween {A : Type} (minRev maxRev : Z) (log : list A)
  : list A :=
  positionsFrom 0 minRev maxRev log.

(** The contract of [getEvents] as the specification words it, for
    arbitrary integer bounds. *)
Definition getEvents_contract (sid : string) (minRev maxRev : Z)
    (s : InMemory.Storage) : Prop :=
  InMemory.getEvents sid minRev maxRev s
  = Ok (match InMemory.store s !! sid with
        | Some log => positionsBetween minRev maxRev log
        | None => []
        end).

(** ** Event objects, revisions and the steps between two calls *)

(** The event object is held by the log of some stream. *)
Definition stored (s : InMemory.Storage) (l : loc) : Prop :=
  exists k log, InMemory.store s !! k = Some log /\ l ∈ log.

(** What can happen to the event objects and the storage between two calls:
    the operations of the storage, the creation of an Event object by
    [addEvent], and the assignments of the commit loop. *)
Inductive storageStep :
  heap * InMemory.Storage -> heap * InMemory.Storage -> Prop :=
| step_addEvents evts h s :
    storageStep (h, s) (h, (InMemory.addEvents evts h s).1)
| step_addSnapshot snap h s :
    storageStep (h, s) (h, (InMemory.addSnapshot snap s).1)
| step_getId h s :
    storageStep (h, s) (h, (InMemory.getId s).1)
| step_setEventToDispatched l h s :
    storageStep (h, s) (InMemory.setEventToDispatched l h, s)
| step_newEvent sid p h s :
    storageStep (h, s) ((alloc (newEvent sid p) h).2, s)
| step_seal l id i stamp rev h s :
    storageStep (h, s) (<[l := seal id i stamp rev (h !!! l)]> h, s).

(** The event carries a revision assigned by a commit: a number, not below
    zero. *)
Definition committed (h : heap) (l : loc) : Prop :=
  exists r, streamRevision (h !!! l) = Some r /\ 0 <= r.

(** [m] is the greatest [streamRevision] among the events. *)
Definition isMaxRevision (h : heap) (evts : list loc) (m : Z) : Prop :=
  (exists l, l ∈ evts /\ streamRevision (h !!! l) = Some m)
  /\ forall l r, l ∈ evts -> streamRevision (h !!! l) = Some r -> r <= m.

(** The list carries its positions as revisions: the event at position i has
    [streamRevision] i, so the revisions are 0, 1, 2, ... without a gap. *)
Definition dense (h : heap) (log : list loc) : Prop :=
  forall (i : nat) l, log !! i = Some l ->
    streamRevision (h !!! l) = Some (Z.of_nat i).

(** An EventStream as [getEventStream] and [addEvent] build it over the
    heap [h]: the uncommitted events are distinct existing objects, apart
    from the loaded ones. *)
Definition wellFormed (h : heap) (es : EventStream) : Prop :=
  lastRevision es = -1
  /\ NoDup (uncommittedEvents es)
  /\ (forall l, l ∈ uncommittedEvents es -> (l < length h)%nat)
  /\ (forall l, l ∈ events es -> (l < length h)%nat)
  /\ (forall l, l ∈ uncommittedEvents es -> l ∉ events es).

(** ** The claims on commit, the round trip and getFromSnapshot *)

(** The EventStream object after [commitEvents]. *)
Definition moved (es : EventStream) : EventStream :=
  {| es_streamId := es_streamId es;
     events := events es ++ uncommittedEvents es;
     uncommittedEvents := [];
     lastRevision := lastRevision es |}.

(** The effect of [commit] on the batch as the specification states it:
    one id and one stamp for the whole batch, the index as
    [commitSequence], and [dispatched] false on each event. *)
Definition commit_as_claimed {St : Type} `{IStorage St} (now : nat -> Z)
    (es : EventStream) (w : World St) : Prop :=
  let after := objects (commit now es w).1.1 in
  exists id stamp, forall k l,
    uncommittedEvents es !! k = Some l ->
    commitSequence (after !!! l) = Some (Z.of_nat k)
    /\ commitId (after !!! l) = Some id
    /\ commitStamp (after !!! l) = Some stamp
    /\ dispatched (after !!! l) = false.

(** [stream = getEventStream(sid, revMin, revMax); stream.addEvent(p);
    stream.commit(); getEventStream(sid, 0, -1)]: the payloads of the
    events of the EventStream loaded last. An exception ends the
    sequence. *)
Definition roundTrip {St : Type} `{IStorage St} (now : nat -> Z)
    (sid : string) (revMin revMax : Z) (p : Js.value) (w : World St)
  : reply (list Js.value) :=
  match getEventStream sid revMin revMax w with
  | Err e => Err e
  | Thrown e => Thrown e
  | Ok es =>
      let '(es1, h1) := addEvent p es (objects w) in
      let '(w2, _, calls) :=
        commit now es1
               (mkWorld h1 (storage w) (dispatcher w) (clockReads w)) in
      match last calls with
      | Some (Thrown e) => Thrown e
      | _ =>
          match getEventStream sid 0 (-1) w2 with
          | Err e => Err e
          | Thrown e => Thrown e
          | Ok es3 =>
              Ok ((fun l => payload (objects w2 !!! l)) <$> events es3)
          end
      end
  end.

(** The round trip as the specification states it: the payload comes
    back. *)
Definition roundTrip_yields (now : nat -> Z) (sid : string)
    (revMin revMax : Z) (p : Js.value) (w : World InMemory.Storage) : Prop :=
  exists ps, roundTrip now sid revMin revMax p w = Ok ps /\ p ∈ ps.

(** [getFromSnapshot] as the specification states it: the pair is handed
    over; the stream is the one loaded from [snap.revision + 1], or from 0
    when the snapshot has no revision; and, when the snapshot has a
    revision and the stream is not empty, the first event lies behind the
    snapshot and the stream holds exactly the events with a revision in
    (snap.revision, maxRev]. *)
Definition fromSnapshot_as_claimed (sid : string) (maxRev : Z)
    (w : World InMemory.Storage) : Prop :=
  exists snap stream,
    getFromSnapshot sid maxRev w = [Ok (snap, Some stream)]
    /\ (forall sn r0,
          snap = SnapOf sn -> revision sn = Some r0 ->
          getEventStream sid (r0 + 1) maxRev w = Ok stream
          /\ (events stream <> [] ->
              (forall l0, events stream !! 0%nat = Some l0 ->
                 exists r,
                   streamRevision (objects w !!! l0) = Some r /\ r0 < r)
              /\ (forall s log l r,
                    storage w = Some s ->
                    InMemory.store s !! sid = Some log ->
                    l ∈ log -> streamRevision (objects w !!! l) = Some r ->
                    l ∈ events stream <-> r0 < r /\ r <= maxRev)))
    /\ ((forall sn, snap = SnapOf sn -> revision sn = None) ->
        getEventStream sid 0 maxRev w = Ok stream).

(** [getFromSnapshot] as the code has it: the window is open at [maxRev],
    and unbounded for [maxRev = -1]; without a snapshot revision the load
    starts at 0 and the stream holds every event below [maxRev]. *)
Definition fromSnapshot_window (sid : string) (maxRev : Z)
    (w : World InMemory.Storage) : Prop :=
  exists snap stream,
    getFromSnapshot sid maxRev w = [Ok (snap, Some stream)]
    /\ (forall sn r0,
          snap = SnapOf sn -> revision sn = Some r0 ->
          getEventStream sid (r0 + 1) maxRev w = Ok stream
          /\ (forall l0, events stream !! 0%nat = Some l0 ->
                exists r,
                  streamRevision (objects w !!! l0) = Some r /\ r0 < r)
          /\ (forall s log l r,
                storage w = Some s ->
                InMemory.store s !! sid = Some log ->
                l ∈ log -> streamRevision (objects w !!! l) = Some r ->
                l ∈ events stream
                <-> r0 < r /\ (maxRev = -1 \/ r < maxRev)))
    /\ ((forall sn, snap = SnapOf sn -> revision sn = None) ->
        getEventStream sid 0 maxRev w = Ok stream
        /\ (forall s log l r,
              storage w = Some s ->
              InMemory.store s !! sid = Some log ->
              l ∈ log -> streamRevision (objects w !!! l) = Some r ->
              l ∈ events stream <-> maxRev = -1 \/ r < maxRev)).

(** Where the in-memory [getSnapshot] answers [getFromSnapshot]: the stream
    has no snapshots, or [maxRev] is -1, or a snapshot lies at or below
    [maxRev]. *)
Definition snapshotAnswered (sid : string) (maxRev : Z)
    (s : InMemory.Storage) : Prop :=
  forall snaps, InMemory.snapshots s !! sid = Some snaps ->
    maxRev = -1
    \/ exists sn, sn ∈ snaps /\ InMemory.upTo maxRev sn = true.

(** * Concrete states and runs *)

(** Three events of stream "A", stored in one batch. *)
Definition threeEvents : heap :=
  [newEvent "A" (Js.VStr "p1"); newEvent "A" (Js.VStr "p2");
   newEvent "A" (Js.VStr "p3")].

Definition threeStored : InMemory.Storage :=
  (InMemory.addEvents (Some [0; 1; 2]%nat) threeEvents
                      InMemory.createStorage).1.

(** Two events of stream "constructor", and an event of stream "B" after
    them. *)
Definition constructorEvents : heap :=
  [newEvent "constructor" (Js.VStr "p1");
   newEvent "constructor" (Js.VStr "p2"); newEvent "B" (Js.VStr "q")].

(** A stream with a single snapshot, taken at revision 5. *)
Definition snapshotAtFive : InMemory.Storage :=
  (InMemory.addSnapshot (mkSnapshot (Some "s1") "A" (Some 5) Js.VNull)
                        InMemory.createStorage).1.

(** A clock that advances between two readings, and one that does not. *)
Definition tickingClock (n : nat) : Z := 1000 + Z.of_nat n.
Definition steadyClock (n : nat) : Z := 1000.

(** A store with a new in-memory storage and the given Event objects. *)
Definition worldOf (h : heap) : World InMemory.Storage :=
  mkWorld h (Some InMemory.createStorage) [] O.

(** A new EventStream "A" after [addEvent("p1"); addEvent("p2")]. *)
Definition twoPending : EventStream * heap :=
  let '(es1, h1) := addEvent (Js.VStr "p1") (newEventStream "A" []) [] in
  addEvent (Js.VStr "p2") es1 h1.

(** A new EventStream "A" after [addEvent("p1")], whose event was then
    handed to [setEventToDispatched]. *)
Definition onePendingFlagged : EventStream * heap :=
  let '(es1, h1) := addEvent (Js.VStr "p1") (newEventStream "A" []) [] in
  (es1, InMemory.setEventToDispatched 0%nat h1).

(** A storage module whose [addEvents] reports a failure. *)
Definition refusingStorage : IStorage InMemory.Storage := {|
  addEvents := fun _ _ s => (s, Err "write failed");
  addSnapshot := InMemory.addSnapshot;
  getEvents := InMemory.getEvents;
  getSnapshot := InMemory.getSnapshot;
  getId := InMemory.getId
|}.

(** The first id a new in-memory storage hands out, with the storage after
    the draw. *)
Definition firstId : InMemory.Storage * string :=
  ({| InMemory.store := ∅; InMemory.snapshots := ∅; InMemory.uuids := 1 |},
   InMemory.uuid 0).

(** Stream "A" after one commit of four events (revisions 0 to 3) and a
    snapshot taken at revision 1. *)
Definition fourCommitted : World InMemory.Storage :=
  let '(es1, h1) := addEvent (Js.VStr "p0") (newEventStream "A" []) [] in
  let '(es2, h2) := addEvent (Js.VStr "p1") es1 h1 in
  let '(es3, h3) := addEvent (Js.VStr "p2") es2 h2 in
  let '(es4, h4) := addEvent (Js.VStr "p3") es3 h3 in
  let '(w1, _, _) := commit tickingClock es4 (worldOf h4) in
  (createSnapshot "A" (Some 1) (Js.VStr "state") w1).1.

(** The storage of [fourCommitted]. *)
Definition fourStored : InMemory.Storage :=
  default InMemory.createStorage (storage fourCommitted).

(** The stream "A" of [fourCommitted], loaded in full, after
    [addEvent("p4")], and the store it is committed in. *)
Definition fifthPending : EventStream * heap :=
  addEvent (Js.VStr "p4") (newEventStream "A" [0; 1; 2; 3]%nat)
           (objects fourCommitted).

Definition fifthWorld : World InMemory.Storage :=
  mkWorld fifthPending.2 (Some fourStored) (dispatcher fourCommitted)
          (clockReads fourCommitted).

(** The revisions the stored log of a stream carries. *)
Definition storedRevisions (sid : string) (w : World InMemory.Storage)
  : list (option Z) :=
  match storage w with
  | Some s =>
      (fun l => streamRevision (objects w !!! l))
        <$> default [] (InMemory.store s !! sid)
  | None => []
  end.

(** [stream.addEvent(p); stream.commit()] on a loaded EventStream: the
    store afterwards. *)
Definition addAndCommit (now : nat -> Z) (p : Js.value) (es : EventStream)
    (w : World InMemory.Storage) : World InMemory.Storage :=
  let '(es1, h1) := addEvent p es (objects w) in
  (commit now es1
          (mkWorld h1 (storage w) (dispatcher w) (clockReads w))).1.1.

(** [fourCommitted] after [createSnapshot("A", 3, ...)], and then after
    [getFromSnapshot("A", -1)] and [addEvent("p4"); commit()] on the
    EventStream handed over. *)
Definition snapshotAtThree : World InMemory.Storage :=
  (createSnapshot "A" (Some 3) (Js.VStr "state") fourCommitted).1.

Definition resumedFromSnapshot : World InMemory.Storage :=
  match getFromSnapshot "A" (-1) snapshotAtThree with
  | [Ok (_, Some es)] =>
      addAndCommit tickingClock (Js.VStr "p4") es snapshotAtThree
  | _ => snapshotAtThree
  end.

(** [fourCommitted] after [getEventStream("A", 0, 2)] and
    [addEvent("p4"); commit()] on the EventStream handed over. *)
Definition resumedFromPart : World InMemory.Storage :=
  match getEventStream "A" 0 2 fourCommitted with
  | Ok es => addAndCommit tickingClock (Js.VStr "p4") es fourCommitted
  | _ => fourCommitted
  end.

(** A storage module that cannot hand out an id. *)
Definition idlessStorage : IStorage InMemory.Storage := {|
  addEvents := InMemory.addEvents;
  addSnapshot := InMemory.addSnapshot;
  getEvents := InMemory.getEvents;
  getSnapshot := InMemory.getSnapshot;
  getId := fun s => (s, Err "no id")
|}.

(** A store on which [use] was never called with a storage. *)
Definition unconfigured : World InMemory.Storage := mkWorld [] None [] O.

(** The order of two events by their commit stamps. *)
Definition stampLe (h : heap) (a b : loc) : Prop :=
  Js.to_number (commitStamp (h !!! a)) <= Js.to_number (commitStamp (h !!! b)).

(** The events of all streams, in the order of the visit. *)
Definition allEvents (visited : list (string * list loc)) : list loc :=
  mbind (M := list) snd visited.

(** [addEvent] called with the payloads [ps], one after the other. *)
Definition addEachEvent (ps : list Js.value) (es : EventStream) (h : heap)
  : EventStream * heap :=
  foldl (fun st p => addEvent p st.1 st.2) (es, h) ps.

(** The stream "A" of [threeStored], whose events were stored without a
    commit and carry no revision, loaded in full, after [addEvent("p4")],
    and the store it is committed in. *)
Definition afterUncommitted : EventStream * heap :=
  addEvent (Js.VStr "p4") (newEventStream "A" [0; 1; 2]%nat) threeEvents.

Definition afterUncommittedWorld : World InMemory.Storage :=
  mkWorld afterUncommitted.2 (Some threeStored) [] O.

(** * Properties *)

(** ** Property lookup *)
Section Lookup.

Context {A : Type}.
Implicit Types (obj : gmap string A) (k : string).

Lemma get_own obj k a : obj !! k = Some a -> Js.get obj k = Js.Own a.
Proof. intros Hk. unfold Js.get. by rewrite Hk. Qed.

Lemma get_missing obj k :
  obj !! k = None -> Js.inherited k = None -> Js.get obj k = Js.Missing.
Proof. intros Hk Hin. unfold Js.get. by rewrite Hk, Hin. Qed.

Lemma get_inherited obj k len :
  obj !! k = None -> Js.inherited k = Some len ->
  Js.get obj k = Js.Inherited len.
Proof. intros Hk Hin. unfold Js.get. by rewrite Hk, Hin. Qed.

Lemma get_ownOrAbsent obj k :
  Js.ownOrAbsent obj k ->
  Js.get obj k = match obj !! k with
                 | Some a => Js.Own a
                 | None => Js.Missing
                 end.
Proof.
  intros [[a Hk]|Hin]; unfold Js.get.
  - by rewrite Hk.
  - by rewrite Hin.
Qed.

End Lookup.

(** ** Array.prototype.slice on non-negative arguments *)
Section Slice.

Context {A : Type}.
Implicit Types (arr : list A) (a b : Z).

Lemma slice_from arr a :
  0 <= a -> Js.slice a None arr = drop (Z.to_nat a) arr.
Proof.
  intros Ha. unfold Js.slice, Js.clamp.
  destruct (Z.ltb_spec a 0) as [|_]; [lia|].
  destruct (Z.le_gt_cases a (Z.of_nat (length arr))) as [Hle|Hgt].
  - rewrite Z.min_l by lia.
    apply take_ge. rewrite length_drop. lia.
  - rewrite Z.min_r by lia.
    rewrite Z.sub_diag, Nat2Z.id. simpl.
    symmetry. apply drop_ge. lia.
Qed.

Lemma slice_between arr a b :
  0 <= a -> 0 <= b ->
  Js.slice a (Some b) arr
  = take (Z.to_nat b - Z.to_nat a) (drop (Z.to_nat a) arr).
Proof.
  intros Ha Hb. unfold Js.slice, Js.clamp.
  destruct (Z.ltb_spec a 0) as [|_]; [lia|].
  destruct (Z.ltb_spec b 0) as [|_]; [lia|].
  destruct (Z.le_gt_cases a (Z.of_nat (length arr))) as [Hle|Hgt].
  - rewrite (Z.min_l a) by lia.
    destruct (Z.le_gt_cases b (Z.of_nat (length arr))) as [Hb'|Hb'].
    + rewrite Z.min_l by lia. f_equal. lia.
    + rewrite Z.min_r by lia.
      rewrite !take_ge; [done| |]; rewrite length_drop; lia.
  - rewrite (Z.min_r a) by lia.
    rewrite Nat2Z.id, !drop_ge by lia.
    by rewrite !take_nil.
Qed.

End Slice.

Section Positions.

Context {A : Type}.
Implicit Types (log : list A).

Lemma positionsFrom_cons off minRev maxRev x log :
  positionsFrom off minRev maxRev (x :: log)
  = (if decide (inRange minRev maxRev off) then [x] else [])
      ++ positionsFrom (S off) minRev maxRev log.
Proof.
  unfold positionsFrom. rewrite imap_cons, filter_cons. simpl.
  replace (off + 0)%nat with off by lia.
  rewrite (imap_ext _ (fun i x => ((S off + i)%nat, x)) log)
    by (intros; simpl; f_equal; lia).
  by destruct (decide (inRange minRev maxRev off)).
Qed.

Lemma positionsFrom_to_end off minRev log :
  0 <= minRev ->
  positionsFrom off minRev (-1) log = drop (Z.to_nat minRev - off) log.
Proof.
  intros Hmin. revert off.
  induction log as [|x log IH]; intros off.
  - by rewrite drop_nil.
  - rewrite positionsFrom_cons, IH.
    destruct (decide (inRange minRev (-1) off)) as [[Hlo _]|Hn].
    + replace (Z.to_nat minRev - off)%nat with O by lia.
      replace (Z.to_nat minRev - S off)%nat with O by lia.
      done.
    + assert (off < Z.to_nat minRev)%nat as Hlt.
      { unfold inRange in Hn. lia. }
      replace (Z.to_nat minRev - off)%nat
        with (S (Z.to_nat minRev - S off)) by lia.
      done.
Qed.

Lemma positionsFrom_bounded off minRev maxRev log :
  0 <= minRev -> 0 <= maxRev ->
  positionsFrom off minRev maxRev log
  = take (Z.to_nat maxRev - Nat.max (Z.to_nat minRev) off)
         (drop (Z.to_nat minRev - off) log).
Proof.
  intros Hmin Hmax. revert off.
  induction log as [|x log IH]; intros off.
  - by rewrite drop_nil, take_nil.
  - rewrite positionsFrom_cons, IH.
    destruct (decide (inRange minRev maxRev off)) as [[Hlo Hhi]|Hn].
    + replace (Z.to_nat minRev - off)%nat with O by lia.
      replace (Z.to_nat minRev - S off)%nat with O by lia.
      replace (Z.to_nat maxRev - Nat.max (Z.to_nat minRev) off)%nat
        with (S (Z.to_nat maxRev - Nat.max (Z.to_nat minRev) (S off)))
        by lia.
      done.
    + unfold inRange in Hn.
      destruct (decide (off < Z.to_nat minRev)%nat) as [Hlt|Hge].
      * replace (Z.to_nat minRev - off)%nat
          with (S (Z.to_nat minRev - S off)) by lia.
        replace (Nat.max (Z.to_nat minRev) off)
          with (Nat.max (Z.to_nat minRev) (S off)) by lia.
        done.
      * replace (Z.to_nat maxRev - Nat.max (Z.to_nat minRev) off)%nat
          with O by lia.
        replace (Z.to_nat maxRev - Nat.max (Z.to_nat minRev) (S off))%nat
          with O by lia.
        by rewrite !take_0.
Qed.

(** On its contract's domain [slice] is the positional window. *)
Lemma slice_positionsBetween minRev maxRev log :
  0 <= minRev -> -1 <= maxRev ->
  (if maxRev =? -1 then Js.slice minRev None log
   else Js.slice minRev (Some maxRev) log)
  = positionsBetween minRev maxRev log.
Proof.
  intros Hmin Hmax. unfold positionsBetween.
  destruct (Z.eqb_spec maxRev (-1)) as [->|Hne].
  - rewrite slice_from, positionsFrom_to_end by done.
    f_equal. lia.
  - rewrite slice_between, positionsFrom_bounded by lia.
    f_equal; [|f_equal]; lia.
Qed.

End Positions.

(** ** Storage.getEvents *)

(** [getEvents] where the lookup of the streamId does not end at
    [Object.prototype]: the slice of the stored log, if there is one. *)
Lemma getEvents_own (sid : string) (minRev maxRev : Z)
    (s : InMemory.Storage) :
  Js.ownOrAbsent (InMemory.store s) sid ->
  InMemory.getEvents sid minRev maxRev s
  = Ok (match InMemory.store s !! sid with
        | Some log =>
            if maxRev =? -1 then Js.slice minRev None log
            else Js.slice minRev (Some maxRev) log
        | None => []
        end).
Proof.
  intros Hsid. unfold InMemory.getEvents.
  rewrite (get_ownOrAbsent _ _ Hsid).
  destruct (InMemory.store s !! sid) as [log|]; [|done].
  by destruct (maxRev =? -1).
Qed.

(** C6, as stated, fails for negative bounds other than [maxRev = -1]:
    [slice] counts a negative bound from the end of the log. With the log
    [e0, e1, e2], [getEvents("A", 0, -2)] returns [e0] where no index lies
    in [0 <= i < -2], and [getEvents("A", -1, -1)] returns [e2] where every
    index lies in [-1 <= i]. *)
Lemma getEvents_contract_counterexample :
  InMemory.getEvents "A" 0 (-2) threeStored = Ok [0%nat]
  /\ ~ getEvents_contract "A" 0 (-2) threeStored
  /\ InMemory.getEvents "A" (-1) (-1) threeStored = Ok [2%nat]
  /\ ~ getEvents_contract "A" (-1) (-1) threeStored.
Proof.
  unfold getEvents_contract.
  repeat split; try (intros Hc; vm_compute in Hc; discriminate Hc);
    vm_compute; reflexivity.
Qed.

(** C6 (amended): for every streamId that has stored events or does not
    name a property of [Object.prototype], every [minRev >= 0] and every
    [maxRev >= -1], [getEvents] returns the events of the stream at the
    zero-based positions [i] with [minRev <= i < maxRev], in log order;
    [maxRev = -1] returns all events from position [minRev] to the end; a
    streamId without stored events yields the empty list. *)
Theorem getEvents_positional (sid : string) (minRev maxRev : Z)
    (s : InMemory.Storage) :
  Js.ownOrAbsent (InMemory.store s) sid ->
  0 <= minRev -> -1 <= maxRev ->
  getEvents_contract sid minRev maxRev s.
Proof.
  intros Hsid Hmin Hmax. unfold getEvents_contract.
  rewrite (getEvents_own sid minRev maxRev s Hsid).
  destruct (InMemory.store s !! sid) as [log|]; [|done].
  by rewrite slice_positionsBetween.
Qed.

Lemma getEvents_positional_witness :
  getEvents_contract "A" 1 (-1) threeStored
  /\ InMemory.getEvents "A" 1 (-1) threeStored = Ok [1; 2]%nat.
Proof.
  split.
  - apply (getEvents_positional "A" 1 (-1) threeStored); [|lia|lia].
    right. reflexivity.
  - vm_compute. reflexivity.
Defined.

(** For a streamId that names a property of [Object.prototype] and has no
    stored events, [getEvents] throws. *)
Lemma getEvents_inherited (sid : string) (minRev maxRev : Z)
    (s : InMemory.Storage) :
  InMemory.store s !! sid = None -> is_Some (Js.inherited sid) ->
  InMemory.getEvents sid minRev maxRev s = Thrown Js.typeError.
Proof.
  intros Hk [len Hin]. unfold InMemory.getEvents.
  by rewrite (get_inherited _ _ len Hk Hin).
Qed.

(** ** Storage.addEvents *)

Lemma addEvents_store (e0 : loc) (rest : list loc) (h : heap)
    (s : InMemory.Storage) :
  let k := Js.to_key (streamId (h !!! e0)) in
  Js.ownOrAbsent (InMemory.store s) k ->
  InMemory.store (InMemory.addEvents (Some (e0 :: rest)) h s).1
  = <[k := default [] (InMemory.store s !! k) ++ e0 :: rest]>
      (InMemory.store s).
Proof.
  intros k Hk. unfold InMemory.addEvents. fold k.
  rewrite (get_ownOrAbsent _ _ Hk).
  destruct (InMemory.store s !! k) as [log|] eqn:Hlog; simpl.
  - by rewrite (lookup_total_correct _ _ _ Hlog).
  - by rewrite lookup_total_insert_eq, insert_insert_eq.
Qed.

Lemma addEvents_reply (e0 : loc) (rest : list loc) (h : heap)
    (s : InMemory.Storage) :
  Js.ownOrAbsent (InMemory.store s) (Js.to_key (streamId (h !!! e0))) ->
  (InMemory.addEvents (Some (e0 :: rest)) h s).2 = Ok tt.
Proof.
  intros Hk. unfold InMemory.addEvents.
  rewrite (get_ownOrAbsent _ _ Hk).
  by destruct (InMemory.store s !! _).
Qed.

(** The snapshots and the id counter are out of the reach of
    [addEvents]. *)
Lemma addEvents_rest (evts : option (list loc)) (h : heap)
    (s : InMemory.Storage) :
  InMemory.snapshots (InMemory.addEvents evts h s).1 = InMemory.snapshots s
  /\ InMemory.uuids (InMemory.addEvents evts h s).1 = InMemory.uuids s.
Proof.
  destruct evts as [[|e0 rest]|]; [done| |done].
  unfold InMemory.addEvents. by destruct (Js.get _ _).
Qed.

(** [addEvents] on a batch whose first streamId names a property of
    [Object.prototype] and has no log yet: [this.store[streamId]] is the
    inherited value, the log is not created, and the call of [.concat]
    throws before anything is stored or called back. *)
Lemma addEvents_thrown (e0 : loc) (rest : list loc) (h : heap)
    (s : InMemory.Storage) :
  let k := Js.to_key (streamId (h !!! e0)) in
  InMemory.store s !! k = None -> is_Some (Js.inherited k) ->
  InMemory.addEvents (Some (e0 :: rest)) h s = (s, Thrown Js.typeError).
Proof.
  intros k Hk [len Hin]. unfold InMemory.addEvents. fold k.
  by rewrite (get_inherited _ _ len Hk Hin).
Qed.

Lemma addEvents_cases (e0 : loc) (rest : list loc) (h : heap)
    (s : InMemory.Storage) :
  Js.ownOrAbsent (InMemory.store s) (Js.to_key (streamId (h !!! e0)))
  \/ InMemory.addEvents (Some (e0 :: rest)) h s = (s, Thrown Js.typeError).
Proof.
  unfold Js.ownOrAbsent.
  destruct (InMemory.store s !! _) as [log|] eqn:Hk; [left; left; eauto|].
  destruct (Js.inherited (Js.to_key (streamId (h !!! e0)))) as [len|] eqn:Hin.
  - right. apply addEvents_thrown; [done|]. rewrite Hin. by eexists.
  - left. by right.
Qed.

(** C9 (the code departs from it): a batch whose events share one streamId
    is appended, in its order, to the log of that stream (the stream of
    [events[0]]), the log of every other stream and the snapshots being
    unchanged, where the stream has a log already or its streamId names no
    property of [Object.prototype]; for a first batch under an inherited
    name such as ["constructor"] the call throws and nothing is stored.
    An empty or missing batch succeeds and leaves the storage as it
    was. *)
Theorem addEvents_appends (e0 : loc) (rest : list loc) (sid : option string)
    (h : heap) (s : InMemory.Storage) :
  (forall l, l ∈ e0 :: rest -> streamId (h !!! l) = sid) ->
  let r := InMemory.addEvents (Some (e0 :: rest)) h s in
  (Js.ownOrAbsent (InMemory.store s) (Js.to_key sid) ->
     r.2 = Ok tt
     /\ InMemory.store r.1 !! Js.to_key sid
        = Some (default [] (InMemory.store s !! Js.to_key sid) ++ e0 :: rest)
     /\ (forall k, k <> Js.to_key sid ->
           InMemory.store r.1 !! k = InMemory.store s !! k)
     /\ InMemory.snapshots r.1 = InMemory.snapshots s)
  /\ (InMemory.store s !! Js.to_key sid = None ->
      is_Some (Js.inherited (Js.to_key sid)) ->
      r = (s, Thrown Js.typeError))
  /\ InMemory.addEvents (Some []) h s = (s, Ok tt)
  /\ InMemory.addEvents None h s = (s, Ok tt).
Proof.
  intros Hsid r.
  assert (streamId (h !!! e0) = sid) as H0 by (apply Hsid; left).
  subst r. split; [|split; [|done]].
  - intros Hown. rewrite <- H0 in Hown.
    rewrite addEvents_reply, addEvents_store, H0 by done.
    split; [done|]. split; [by rewrite lookup_insert_eq|].
    split; [|apply addEvents_rest].
    intros k Hk. by rewrite lookup_insert_ne.
  - intros Hnone Hin. rewrite <- H0 in Hnone, Hin.
    by apply addEvents_thrown.
Qed.

Lemma addEvents_appends_witness :
  InMemory.addEvents (Some [0; 1]%nat) constructorEvents
                     InMemory.createStorage
  = (InMemory.createStorage, Thrown Js.typeError).
Proof.
  assert (forall l, l ∈ [0; 1]%nat ->
            streamId (constructorEvents !!! l) = Some "constructor")
    as Hsid.
  { intros l Hl. apply list_elem_of_In in Hl. simpl in Hl.
    destruct Hl as [<-|[<-|[]]]; reflexivity. }
  pose proof (addEvents_appends 0%nat [1%nat] (Some "constructor")
                constructorEvents InMemory.createStorage Hsid) as Hw.
  cbv zeta in Hw. destruct Hw as (_ & Hthrown & _).
  apply Hthrown.
  - reflexivity.
  - eexists. reflexivity.
Defined.

(** C10 (the code departs from it): a non-empty batch that holds an event
    of another stream than [events[0]] is accepted without validation,
    where the stream of [events[0]] has a log already or its streamId
    names no property of [Object.prototype]: the reply is a success and
    the whole batch, the foreign event included, is appended to the log of
    the stream of [events[0]]; the log of the foreign event's own stream
    does not change. For a first batch under an inherited name the call
    throws: no success is reported and no event of the batch is stored. *)
Theorem addEvents_no_validation (e0 l : loc) (rest : list loc) (h : heap)
    (s : InMemory.Storage) :
  l ∈ rest -> streamId (h !!! l) <> streamId (h !!! e0) ->
  let k := Js.to_key (streamId (h !!! e0)) in
  let own := Js.to_key (streamId (h !!! l)) in
  let r := InMemory.addEvents (Some (e0 :: rest)) h s in
  (Js.ownOrAbsent (InMemory.store s) k ->
     r.2 = Ok tt
     /\ InMemory.store r.1 !! k
        = Some (default [] (InMemory.store s !! k) ++ e0 :: rest)
     /\ (exists log, InMemory.store r.1 !! k = Some log /\ l ∈ log)
     /\ (own <> k -> InMemory.store r.1 !! own = InMemory.store s !! own))
  /\ (InMemory.store s !! k = None -> is_Some (Js.inherited k) ->
      r.2 = Thrown Js.typeError
      /\ forall k', InMemory.store r.1 !! k' = InMemory.store s !! k').
Proof.
  intros Hl _ k own r. subst r. split.
  - intros Hown. rewrite addEvents_reply, addEvents_store by done.
    fold k. rewrite lookup_insert_eq.
    split; [done|]. split; [done|]. split.
    + eexists. split; [reflexivity|].
      apply elem_of_app. right. by right.
    + intros Hne. by rewrite lookup_insert_ne.
  - intros Hnone Hin. by rewrite addEvents_thrown.
Qed.

Lemma addEvents_no_validation_witness :
  let r := InMemory.addEvents (Some [0; 2]%nat) constructorEvents
                              InMemory.createStorage in
  r.2 = Thrown Js.typeError
  /\ InMemory.store r.1 !! "constructor" = None
  /\ InMemory.store r.1 !! "B" = None.
Proof.
  intros r.
  assert (streamId (constructorEvents !!! 2%nat)
          <> streamId (constructorEvents !!! 0%nat))
    as Hne by discriminate.
  assert (2%nat ∈ [2%nat]) as Hin by (by left).
  pose proof (addEvents_no_validation 0%nat 2%nat [2%nat] constructorEvents
                InMemory.createStorage Hin Hne) as Hw.
  cbv zeta in Hw. destruct Hw as [_ Hthrown].
  destruct Hthrown as [Hreply Hstore].
  - reflexivity.
  - eexists. reflexivity.
  - split; [exact Hreply|]. split.
    + etrans; [apply Hstore|]. reflexivity.
    + etrans; [apply Hstore|]. reflexivity.
Defined.

(** ** Storage.getSnapshot *)

Lemma scanSnapshots_None (snaps : list Snapshot) (maxRev : Z) (n : nat) :
  InMemory.scanSnapshots snaps maxRev n = None
  <-> forall i snap, (i < n)%nat -> snaps !! i = Some snap ->
        InMemory.upTo maxRev snap = false.
Proof.
  induction n as [|n IH]; simpl.
  - split; [intros _ i snap Hi; lia|done].
  - destruct (snaps !! n) as [sn|] eqn:Hn.
    + destruct (InMemory.upTo maxRev sn) eqn:Hup.
      * split; [done|]. intros Hall.
        specialize (Hall n sn). rewrite Hup in Hall.
        discriminate Hall; [lia|done].
      * rewrite IH. split; intros Hall i snap Hi Hs.
        -- destruct (decide (i = n)) as [->|Hne].
           ++ congruence.
           ++ apply (Hall i); [lia|done].
        -- apply (Hall i); [lia|done].
    + rewrite IH. split; intros Hall i snap Hi Hs.
      * destruct (decide (i = n)) as [->|Hne]; [congruence|].
        apply (Hall i); [lia|done].
      * apply (Hall i); [lia|done].
Qed.

Lemma scanSnapshots_Some (snaps : list Snapshot) (maxRev : Z) (n : nat)
    (snap : Snapshot) :
  InMemory.scanSnapshots snaps maxRev n = Some snap ->
  exists i, (i < n)%nat /\ snaps !! i = Some snap
    /\ InMemory.upTo maxRev snap = true
    /\ forall j snap', (i < j < n)%nat -> snaps !! j = Some snap' ->
         InMemory.upTo maxRev snap' = false.
Proof.
  induction n as [|n IH]; simpl; [done|].
  destruct (snaps !! n) as [sn|] eqn:Hn.
  - destruct (InMemory.upTo maxRev sn) eqn:Hup.
    + intros [= <-]. exists n. repeat split; [lia|done|done|].
      intros j snap' Hj. lia.
    + intros Hscan. destruct (IH Hscan) as (i & Hi & Hs & Hq & Hlater).
      exists i. repeat split; [lia|done|done|].
      intros j snap' Hj Hs'.
      destruct (decide (j = n)) as [->|Hne]; [congruence|].
      apply (Hlater j); [lia|done].
  - intros Hscan. destruct (IH Hscan) as (i & Hi & Hs & Hq & Hlater).
    exists i. repeat split; [lia|done|done|].
    intros j snap' Hj Hs'.
    destruct (decide (j = n)) as [->|Hne]; [congruence|].
    apply (Hlater j); [lia|done].
Qed.

(** Where [getSnapshot] answers, for a streamId whose lookup does not end
    at [Object.prototype]: without snapshots for the stream it hands over
    the empty object; with [maxRev = -1] the newest snapshot; otherwise
    the latest one, in insertion order, whose revision is at most
    [maxRev]. *)
Lemma getSnapshot_answers (sid : string) (maxRev : Z) (s : InMemory.Storage)
    (r : reply snapval) :
  Js.ownOrAbsent (InMemory.snapshots s) sid ->
  InMemory.getSnapshot sid maxRev s = Some r ->
  match InMemory.snapshots s !! sid with
  | None => r = Ok SnapEmpty
  | Some snaps =>
      if maxRev =? -1 then
        r = Ok (match last snaps with
                | Some snap => SnapOf snap
                | None => SnapUndefined
                end)
      else
        exists i snap, r = Ok (SnapOf snap) /\ snaps !! i = Some snap
          /\ InMemory.upTo maxRev snap = true
          /\ forall j snap', (i < j)%nat -> snaps !! j = Some snap' ->
               InMemory.upTo maxRev snap' = false
  end.
Proof.
  intros Hsid. unfold InMemory.getSnapshot.
  rewrite (get_ownOrAbsent _ _ Hsid).
  destruct (InMemory.snapshots s !! sid) as [snaps|]; [|by intros [= <-]].
  destruct (maxRev =? -1).
  - rewrite last_lookup.
    replace (pred (length snaps)) with (length snaps - 1)%nat by lia.
    destruct (snaps !! _); by intros [= <-].
  - destruct (InMemory.scanSnapshots snaps maxRev (length snaps)) as [snap|]
      eqn:Hscan; [|done].
    intros [= <-].
    destruct (scanSnapshots_Some _ _ _ _ Hscan) as (i & Hi & Hs & Hq & Hl).
    exists i, snap. repeat split; [done..|].
    intros j snap' Hj Hs'. apply (Hl j); [|done].
    split; [done|]. by apply lookup_lt_Some in Hs'.
Qed.

Lemma getSnapshot_qualifying (sid : string) (maxRev : Z)
    (s : InMemory.Storage) (snaps : list Snapshot) (snap : Snapshot) :
  InMemory.snapshots s !! sid = Some snaps ->
  snap ∈ snaps -> InMemory.upTo maxRev snap = true ->
  exists snap', InMemory.getSnapshot sid maxRev s = Some (Ok (SnapOf snap'))
    /\ snap' ∈ snaps.
Proof.
  intros Hs Hin Hup. unfold InMemory.getSnapshot. rewrite (get_own _ _ _ Hs).
  apply list_elem_of_lookup in Hin as [i Hi].
  destruct (maxRev =? -1).
  - destruct (snaps !! (length snaps - 1)%nat) as [snap'|] eqn:Hlast.
    + exists snap'. split; [done|]. by eapply list_elem_of_lookup_2.
    + apply lookup_ge_None in Hlast. apply lookup_lt_Some in Hi. lia.
  - destruct (InMemory.scanSnapshots snaps maxRev (length snaps)) as [snap'|]
      eqn:Hscan.
    + exists snap'. split; [done|].
      destruct (scanSnapshots_Some _ _ _ _ Hscan) as (j & _ & Hj & _).
      by eapply list_elem_of_lookup_2.
    + rewrite scanSnapshots_None in Hscan.
      rewrite (Hscan i snap) in Hup; [done| |done].
      by apply lookup_lt_Some in Hi.
Qed.

(** C5 (the code departs from it): when the stream has snapshots and every
    one of them has a revision greater than [maxRev] (with [maxRev] other
    than -1), the loop of [getSnapshot] runs out and the callback is never
    called: no empty or absent marker is returned. *)
Theorem getSnapshot_unanswered (sid : string) (maxRev : Z)
    (s : InMemory.Storage) (snaps : list Snapshot) :
  InMemory.snapshots s !! sid = Some snaps ->
  maxRev <> -1 ->
  (forall snap, snap ∈ snaps ->
     exists r, revision snap = Some r /\ maxRev < r) ->
  InMemory.getSnapshot sid maxRev s = None.
Proof.
  intros Hs Hne Hall. unfold InMemory.getSnapshot. rewrite (get_own _ _ _ Hs).
  destruct (Z.eqb_spec maxRev (-1)) as [|_]; [done|].
  assert (InMemory.scanSnapshots snaps maxRev (length snaps) = None) as ->;
    [|done].
  apply scanSnapshots_None. intros i snap _ Hi.
  destruct (Hall snap) as (r & Hr & Hlt); [by eapply list_elem_of_lookup_2|].
  unfold InMemory.upTo. rewrite Hr. lia.
Qed.

Lemma getSnapshot_unanswered_witness :
  InMemory.getSnapshot "A" 3 snapshotAtFive = None.
Proof.
  apply (getSnapshot_unanswered "A" 3 snapshotAtFive
           [mkSnapshot (Some "s1") "A" (Some 5) Js.VNull]).
  - vm_compute. reflexivity.
  - lia.
  - intros snap Hin. apply list_elem_of_singleton in Hin as ->.
    exists 5. split; [reflexivity|lia].
Defined.

(** ** Storage.getUndispatchedEvents and Storage.setEventToDispatched *)

Lemma getUndispatchedEvents_elem (h : heap) (s : InMemory.Storage)
    (r : list loc) (l : loc) :
  InMemory.getUndispatchedEvents h s = Ok r ->
  l ∈ r <-> stored s l /\ dispatched (h !!! l) = false.
Proof.
  intros [= <-]. rewrite list_elem_of_bind. split.
  - intros ([k log] & Hin & Hkv). simpl in Hin.
    apply list_elem_of_filter in Hin as [Hd Hl].
    apply elem_of_map_to_list in Hkv.
    split; [by exists k, log|done].
  - intros [(k & log & Hk & Hl) Hd].
    exists (k, log). split.
    + simpl. by apply list_elem_of_filter.
    + by apply elem_of_map_to_list.
Qed.

(** No step resets the flag of an event that was set to dispatched. *)
Lemma storageStep_dispatched (evt : loc) (x y : heap * InMemory.Storage) :
  storageStep x y ->
  (evt < length x.1)%nat /\ dispatched (x.1 !!! evt) = true ->
  (evt < length y.1)%nat /\ dispatched (y.1 !!! evt) = true.
Proof.
  intros Hstep [Hlt Hd].
  destruct Hstep as [| | |l h s|sid p h s|l id i stamp rev h s];
    simpl in *; try done.
  - unfold InMemory.setEventToDispatched.
    rewrite length_insert. split; [done|].
    destruct (decide (l = evt)) as [->|Hne].
    + by rewrite list_lookup_total_insert_eq.
    + by rewrite list_lookup_total_insert_ne.
  - rewrite length_app. split; [lia|].
    by rewrite lookup_total_app_l.
  - rewrite length_insert. split; [done|].
    destruct (decide (l = evt)) as [->|Hne].
    + by rewrite list_lookup_total_insert_eq.
    + by rewrite list_lookup_total_insert_ne.
Qed.

Lemma storageSteps_dispatched (evt : loc) (x y : heap * InMemory.Storage) :
  rtc storageStep x y ->
  (evt < length x.1)%nat /\ dispatched (x.1 !!! evt) = true ->
  (evt < length y.1)%nat /\ dispatched (y.1 !!! evt) = true.
Proof.
  induction 1 as [|x y z Hxy _ IH]; [done|].
  intros Hx. apply IH. by eapply storageStep_dispatched.
Qed.

(** C8: after [setEventToDispatched(E)] the list of undispatched events is
    the former one without E, and E stays out of it in every later call,
    whatever storage operations, event creations and commit assignments
    come in between; every stored event whose flag is false is included. *)
Theorem setEventToDispatched_visible (evt : loc) (h : heap)
    (s : InMemory.Storage) :
  (evt < length h)%nat ->
  exists before after,
    InMemory.getUndispatchedEvents h s = Ok before
    /\ InMemory.getUndispatchedEvents
         (InMemory.setEventToDispatched evt h) s = Ok after
    /\ (forall l, l ∈ after <-> l ∈ before /\ l <> evt)
    /\ forall h' s',
         rtc storageStep (InMemory.setEventToDispatched evt h, s) (h', s') ->
         exists later,
           InMemory.getUndispatchedEvents h' s' = Ok later
           /\ (evt ∉ later)
           /\ forall l, stored s' l -> dispatched (h' !!! l) = false ->
                l ∈ later.
Proof.
  intros Hlt.
  assert (dispatched (InMemory.setEventToDispatched evt h !!! evt) = true)
    as Hset.
  { unfold InMemory.setEventToDispatched.
    by rewrite list_lookup_total_insert_eq. }
  eexists _, _. split; [reflexivity|]. split; [reflexivity|]. split.
  - intros l.
    rewrite (getUndispatchedEvents_elem h s _ l eq_refl).
    rewrite (getUndispatchedEvents_elem _ s _ l eq_refl).
    destruct (decide (l = evt)) as [->|Hne].
    + rewrite Hset. split; [by intros [_ [=]]|by intros [_ Hn]].
    + unfold InMemory.setEventToDispatched.
      rewrite list_lookup_total_insert_ne by done.
      split; [by intros Hl|by intros [Hl _]].
  - intros h' s' Hsteps.
    apply (storageSteps_dispatched evt) in Hsteps as [_ Hd]; simpl.
    + eexists. split; [reflexivity|]. split.
      * rewrite (getUndispatchedEvents_elem h' s' _ evt eq_refl).
        simpl in Hd. rewrite Hd. by intros [_ [=]].
      * intros l Hst Hfalse.
        by rewrite (getUndispatchedEvents_elem h' s' _ l eq_refl).
    + split; [|done].
      unfold InMemory.setEventToDispatched. by rewrite length_insert.
Qed.

Lemma setEventToDispatched_visible_witness :
  exists after,
    InMemory.getUndispatchedEvents
      (InMemory.setEventToDispatched 1%nat threeEvents) threeStored = Ok after
    /\ 1%nat ∉ after.
Proof.
  assert (1 < length threeEvents)%nat as Hlt by (simpl; lia).
  destruct (setEventToDispatched_visible 1%nat threeEvents threeStored Hlt)
    as (before & after & _ & Hafter & Hiff & _).
  exists after. split; [exact Hafter|].
  rewrite Hiff. by intros [_ Hne].
Defined.

(** ** The commit loop *)
Section CommitLoop.

Variable now : nat -> Z.
Implicit Types (batch : list loc) (h : heap) (rev : option Z).

Lemma commitLoop_length id batch i rev h reads :
  length (commitLoop now id batch i rev h reads).1 = length h.
Proof.
  revert i rev h reads.
  induction batch as [|l rest IH]; intros i rev h reads; simpl; [done|].
  by rewrite IH, length_insert.
Qed.

Lemma commitLoop_reads id batch i rev h reads :
  (commitLoop now id batch i rev h reads).2 = (reads + length batch)%nat.
Proof.
  revert i rev h reads.
  induction batch as [|l rest IH]; intros i rev h reads; simpl; [lia|].
  rewrite IH. lia.
Qed.

(** An event outside the batch is not touched. *)
Lemma commitLoop_other id batch i rev h reads l :
  l ∉ batch ->
  (commitLoop now id batch i rev h reads).1 !!! l = h !!! l.
Proof.
  revert i rev h reads.
  induction batch as [|l0 rest IH]; intros i rev h reads Hl; simpl;
    [done|].
  apply not_elem_of_cons in Hl as [Hne Hl].
  rewrite IH by done. by rewrite list_lookup_total_insert_ne.
Qed.

(** The k-th event of the batch receives the id, the index [i + k], the
    clock reading taken at its turn and the revision counter after
    [k + 1] increments; its other fields are kept. *)
Lemma commitLoop_sealed id batch i rev h reads k l :
  NoDup batch ->
  (forall l', l' ∈ batch -> (l' < length h)%nat) ->
  batch !! k = Some l ->
  (commitLoop now id batch i rev h reads).1 !!! l
  = seal id (i + Z.of_nat k) (now (reads + k)%nat)
         (Js.to_number rev + 1 + Z.of_nat k) (h !!! l).
Proof.
  revert i rev h reads k.
  induction batch as [|l0 rest IH]; intros i rev h reads k Hnd Hval Hk;
    [done|].
  apply NoDup_cons in Hnd as [Hl0 Hnd].
  destruct k as [|k]; simpl in *.
  - injection Hk as ->.
    rewrite commitLoop_other by done.
    rewrite list_lookup_total_insert_eq by (apply Hval; left).
    f_equal; [lia|f_equal; lia|lia].
  - assert (l ∈ rest) as Hl by (by eapply list_elem_of_lookup_2).
    assert (l0 <> l) as Hne by (intros ->; done).
    rewrite (IH _ _ _ _ k) ; [|done| |done].
    + rewrite list_lookup_total_insert_ne by done.
      f_equal; [lia|f_equal; lia|simpl; lia].
    + intros l' Hl'. rewrite length_insert. apply Hval. by right.
Qed.

End CommitLoop.

(** ** What the commit loop leaves alone *)

Lemma seal_keeps (id : string) (i stamp rev : Z) (h : list Event)
    (l0 l : loc) :
  let h' := <[l0 := seal id i stamp rev (h !!! l0)]> h in
  dispatched (h' !!! l) = dispatched (h !!! l)
  /\ payload (h' !!! l) = payload (h !!! l)
  /\ streamId (h' !!! l) = streamId (h !!! l)
  /\ header (h' !!! l) = header (h !!! l).
Proof.
  simpl. rewrite list_lookup_total_insert.
  case_decide as Hl; [|done]. by destruct Hl as [-> _].
Qed.

Lemma commitLoop_keeps (now : nat -> Z) (id : string) (batch : list loc)
    (i : Z) (rev : option Z) (h : list Event) (reads : nat) (l : loc) :
  let h' := (commitLoop now id batch i rev h reads).1 in
  dispatched (h' !!! l) = dispatched (h !!! l)
  /\ payload (h' !!! l) = payload (h !!! l)
  /\ streamId (h' !!! l) = streamId (h !!! l)
  /\ header (h' !!! l) = header (h !!! l).
Proof.
  revert i rev h reads.
  induction batch as [|l0 rest IH]; intros i rev h reads; simpl; [done|].
  destruct (IH (i + 1) (Some (Js.to_number rev + 1))
               (<[l0 := seal id i (now reads) (Js.to_number rev + 1)
                             (h !!! l0)]> h) (S reads))
    as (Hd & Hp & Hs & Hh).
  destruct (seal_keeps id i (now reads) (Js.to_number rev + 1) h l0 l)
    as (Hd' & Hp' & Hs' & Hh').
  simpl in *. by rewrite Hd, Hp, Hs, Hh.
Qed.

(** ** EventStream.currentRevision *)

Lemma raiseRevision_committed (h : heap) (acc r : Z) (l : loc) :
  streamRevision (h !!! l) = Some r ->
  raiseRevision h (Some acc) l = Some (Z.max acc r).
Proof.
  intros Hr. unfold raiseRevision, Js.gt. rewrite Hr. simpl.
  destruct (Z.ltb_spec acc r); f_equal; lia.
Qed.

Lemma currentRevision_scan (h : heap) (evts : list loc) (acc : Z) :
  Forall (committed h) evts ->
  exists m,
    foldl (raiseRevision h) (Some acc) evts = Some m
    /\ acc <= m
    /\ (forall l r, l ∈ evts -> streamRevision (h !!! l) = Some r -> r <= m)
    /\ (m = acc \/ exists l, l ∈ evts /\ streamRevision (h !!! l) = Some m).
Proof.
  intros Hall. revert acc.
  induction Hall as [|l0 rest (r0 & Hr0 & Hpos) _ IH]; intros acc;
    cbn [foldl].
  - exists acc. repeat split; [lia| |by left].
    intros l r Hl. by apply elem_of_nil in Hl.
  - rewrite (raiseRevision_committed h acc r0 l0 Hr0).
    destruct (IH (Z.max acc r0)) as (m & Hm & Hle & Hub & Hatt).
    exists m. repeat split; [done|lia| |].
    + intros l r Hl Hr. apply elem_of_cons in Hl as [->|Hl].
      * rewrite Hr0 in Hr. injection Hr as <-. lia.
      * by eapply Hub.
    + destruct (Z.max_spec acc r0) as [[Hlt Hmax]|[Hge Hmax]];
        rewrite Hmax in Hatt.
      * right. destruct Hatt as [->|(l & Hl & Hr)].
        -- exists l0. split; [by left|done].
        -- exists l. split; [by right|done].
      * destruct Hatt as [->|(l & Hl & Hr)]; [by left|].
        right. exists l. split; [by right|done].
Qed.

Lemma currentRevision_empty (h : heap) (es : EventStream) :
  events es = [] -> currentRevision h es = Some (lastRevision es).
Proof. unfold currentRevision. by intros ->. Qed.

Lemma currentRevision_max (h : heap) (es : EventStream) :
  lastRevision es = -1 ->
  Forall (committed h) (events es) ->
  events es <> [] ->
  exists m, currentRevision h es = Some m /\ isMaxRevision h (events es) m.
Proof.
  intros Hlast Hall Hne. unfold currentRevision. rewrite Hlast.
  destruct (currentRevision_scan h (events es) (-1) Hall)
    as (m & Hm & Hle & Hub & Hatt).
  exists m. split; [done|]. split; [|done].
  destruct Hatt as [->|Hatt]; [|done].
  destruct (events es) as [|l0 rest]; [done|].
  apply Forall_cons in Hall as [(r0 & Hr0 & Hpos) _].
  assert (r0 <= -1) as Hle0 by (apply (Hub l0); [by left|done]). lia.
Qed.

Lemma dense_committed (h : heap) (evts : list loc) :
  dense h evts -> Forall (committed h) evts.
Proof.
  intros Hd. apply Forall_forall. intros l Hl.
  apply list_elem_of_lookup in Hl as [i Hi].
  exists (Z.of_nat i). split; [by apply Hd|lia].
Qed.

(** Over such a list the revision counter starts at its length. *)
Lemma dense_base (h : heap) (evts : list loc) (base : Z) :
  dense h evts ->
  (evts = [] -> base = -1) ->
  (evts <> [] -> isMaxRevision h evts base) ->
  base + 1 = Z.of_nat (length evts).
Proof.
  intros Hd Hnil Hmax.
  destruct (decide (evts = [])) as [->|Hne]; [rewrite Hnil by done; done|].
  destruct (Hmax Hne) as [(l & Hl & Hr) Hub].
  apply list_elem_of_lookup in Hl as [i Hi].
  pose proof (lookup_lt_Some _ _ _ Hi) as Hlt.
  rewrite (Hd i l Hi) in Hr. injection Hr as <-.
  destruct (lookup_lt_is_Some_2 evts (length evts - 1)) as [l' Hl'];
    [lia|].
  assert (Z.of_nat (length evts - 1) <= Z.of_nat i) as Hle.
  { apply (Hub l'); [by eapply list_elem_of_lookup_2|by apply Hd]. }
  lia.
Qed.

(** ** The revisions the commit loop assigns *)
Section Revisions.

Variable now : nat -> Z.

Lemma commitLoop_revisions (id : string) (es : EventStream) (h : heap)
    (reads : nat) :
  wellFormed h es ->
  Forall (committed h) (events es) ->
  exists base,
    (events es = [] -> base = -1)
    /\ (events es <> [] -> isMaxRevision h (events es) base)
    /\ forall k l, uncommittedEvents es !! k = Some l ->
         streamRevision
           ((commitLoop now id (uncommittedEvents es) 0
                        (currentRevision h es) h reads).1 !!! l)
         = Some (base + 1 + Z.of_nat k).
Proof.
  intros (Hlast & Hnd & Hval & _) Hall.
  destruct (decide (events es = [])) as [Hnil|Hne].
  - exists (-1). split; [done|]. split; [done|].
    intros k l Hk.
    rewrite (commitLoop_sealed now _ _ _ _ _ _ k l Hnd Hval Hk).
    by rewrite (currentRevision_empty _ _ Hnil), Hlast.
  - destruct (currentRevision_max _ _ Hlast Hall Hne) as (m & Hm & Hmax).
    exists m. split; [done|]. split; [done|].
    intros k l Hk.
    rewrite (commitLoop_sealed now _ _ _ _ _ _ k l Hnd Hval Hk).
    by rewrite Hm.
Qed.

(** Loaded events that carry 0, 1, 2, ... are continued by the batch. *)
Lemma commitLoop_keeps_dense (id : string) (es : EventStream) (h : heap)
    (reads : nat) :
  wellFormed h es ->
  dense h (events es) ->
  dense (commitLoop now id (uncommittedEvents es) 0
                    (currentRevision h es) h reads).1
        (events es ++ uncommittedEvents es).
Proof.
  intros Hwf Hdense.
  destruct (commitLoop_revisions id es h reads Hwf
              (dense_committed _ _ Hdense)) as (base & Hnil & Hmax & Hrev).
  destruct Hwf as (_ & _ & _ & _ & Hdisj).
  intros i l Hi.
  apply lookup_app_Some in Hi as [Hi|[Hge Hi]].
  - assert (l ∉ uncommittedEvents es) as Hout.
    { intros Hin. apply (Hdisj l Hin). by eapply list_elem_of_lookup_2. }
    rewrite commitLoop_other by done. by apply Hdense.
  - rewrite (Hrev _ l Hi). f_equal.
    pose proof (dense_base _ _ base Hdense Hnil Hmax). lia.
Qed.

End Revisions.

(** ** EventStream.addEvent *)

Lemma newEventStream_wellFormed (h : heap) (sid : string)
    (evts : list loc) :
  (forall l, l ∈ evts -> (l < length h)%nat) ->
  wellFormed h (newEventStream sid evts).
Proof.
  intros Hval. repeat split; simpl; [apply NoDup_nil_2| |done|].
  - intros l Hl. by apply elem_of_nil in Hl.
  - intros l Hl. by apply elem_of_nil in Hl.
Qed.

Lemma addEvent_wellFormed (p : Js.value) (es : EventStream) (h : heap) :
  wellFormed h es ->
  wellFormed (addEvent p es h).2 (addEvent p es h).1.
Proof.
  intros (Hlast & Hnd & Hunc & Hevts & Hdisj).
  unfold addEvent, alloc. simpl.
  repeat split; simpl; [done| | | |].
  - apply NoDup_app. split; [done|]. split; [|apply NoDup_singleton].
    intros l Hl Hnew. apply list_elem_of_singleton in Hnew.
    specialize (Hunc l Hl). lia.
  - intros l Hl. rewrite length_app. simpl.
    apply elem_of_app in Hl as [Hl|Hl].
    + specialize (Hunc l Hl). lia.
    + apply list_elem_of_singleton in Hl. lia.
  - intros l Hl. rewrite length_app. specialize (Hevts l Hl). lia.
  - intros l Hl Hin. apply elem_of_app in Hl as [Hl|Hl].
    + by apply (Hdisj l).
    + apply list_elem_of_singleton in Hl. specialize (Hevts l Hin). lia.
Qed.

(** ** Store.commit *)
Section Commit.

Context {St : Type} `{IStorage St}.
Variable now : nat -> Z.

(** [commit] once the storage is there and [getId] has handed over an
    id. *)
Lemma commit_with_id (es : EventStream) (w : World St) (st st1 : St)
    (id : string) :
  storage w = Some st -> getId st = (st1, Ok id) ->
  let batch := uncommittedEvents es in
  let loop := commitLoop now id batch 0 (currentRevision (objects w) es)
                         (objects w) (clockReads w) in
  let added := addEvents (Some batch) loop.1 st1 in
  commit now es w
  = match added.2 with
    | Thrown e =>
        (mkWorld loop.1 (Some added.1) (dispatcher w) loop.2, es,
         [Thrown e])
    | Err e =>
        (mkWorld loop.1 (Some added.1) (dispatcher w ++ batch) loop.2,
         moved es, [Err e; Ok (moved es)])
    | Ok _ =>
        (mkWorld loop.1 (Some added.1) (dispatcher w ++ batch) loop.2,
         moved es, [Ok (moved es)])
    end.
Proof.
  intros Hst Hid. unfold commit. rewrite Hst, Hid. simpl.
  destruct (commitLoop _ _ _ _ _ _ _) as [h1 reads1]. simpl.
  by destruct (addEvents _ _ _) as [st2 [e|[]|e]].
Qed.

(** The event objects after [commit], once [getId] has handed over an id:
    the loop has run, whatever [addEvents] does. *)
Lemma commit_objects (es : EventStream) (w : World St) (st st1 : St)
    (id : string) :
  storage w = Some st -> getId st = (st1, Ok id) ->
  objects (commit now es w).1.1
  = (commitLoop now id (uncommittedEvents es) 0
                (currentRevision (objects w) es) (objects w)
                (clockReads w)).1.
Proof.
  intros Hst Hid. rewrite (commit_with_id es w st st1 id Hst Hid).
  cbv zeta. by destruct (addEvents _ _ _).2.
Qed.

(** C1 (amended): the n uncommitted events receive, in submission order,
    the commitSequence values 0..n-1 and the one commitId obtained from
    [getId]; the k-th event is stamped with the clock reading taken at
    its own turn of the loop, so the stamps agree only when the readings
    do; the [dispatched] flag is left as it was, which is false for an
    event as [addEvent] created it, and so are the payload, the streamId
    and the header. *)
Theorem commit_seals_batch (es : EventStream) (w w' : World St)
    (st st1 : St) (id : string) (es' : EventStream)
    (calls : list (reply EventStream)) :
  storage w = Some st -> getId st = (st1, Ok id) ->
  wellFormed (objects w) es ->
  commit now es w = (w', es', calls) ->
  forall k l, uncommittedEvents es !! k = Some l ->
    commitSequence (objects w' !!! l) = Some (Z.of_nat k)
    /\ commitId (objects w' !!! l) = Some id
    /\ commitStamp (objects w' !!! l)
       = Some (now (clockReads w + k)%nat)
    /\ dispatched (objects w' !!! l) = dispatched (objects w !!! l)
    /\ payload (objects w' !!! l) = payload (objects w !!! l)
    /\ streamId (objects w' !!! l) = streamId (objects w !!! l)
    /\ header (objects w' !!! l) = header (objects w !!! l).
Proof.
  intros Hst Hid (_ & Hnd & Hval & _) Hc k l Hk.
  pose proof (commit_objects es w st st1 id Hst Hid) as Hobj.
  rewrite Hc in Hobj. simpl in Hobj. rewrite Hobj.
  rewrite (commitLoop_sealed now _ _ _ _ _ _ k l Hnd Hval Hk).
  simpl. repeat split.
Qed.

(** On success the callback is called once, with the EventStream whose
    uncommitted events were moved behind its events; the batch is queued
    for dispatch. *)
Lemma commit_success (es : EventStream) (w w' : World St) (st st1 : St)
    (id : string) (es' : EventStream) (calls : list (reply EventStream)) :
  storage w = Some st -> getId st = (st1, Ok id) ->
  (forall h, (addEvents (Some (uncommittedEvents es)) h st1).2 = Ok tt) ->
  commit now es w = (w', es', calls) ->
  calls = [Ok es']
  /\ uncommittedEvents es' = []
  /\ events es' = events es ++ uncommittedEvents es
  /\ dispatcher w' = dispatcher w ++ uncommittedEvents es.
Proof.
  intros Hst Hid Hadd Hc.
  rewrite (commit_with_id es w st st1 id Hst Hid) in Hc.
  rewrite Hadd in Hc. by injection Hc as <- <- <-.
Qed.

(** C3 (the code departs from it): when [addEvents] fails with [e], the
    callback is called with [e] and then a second time with the
    EventStream as on success; the uncommitted events have been moved
    onto [events] and the batch has been put on the dispatcher's queue. *)
Theorem commit_addEvents_failure (es : EventStream) (w w' : World St)
    (st st1 : St) (id e : string) (es' : EventStream)
    (calls : list (reply EventStream)) :
  storage w = Some st -> getId st = (st1, Ok id) ->
  (forall h, (addEvents (Some (uncommittedEvents es)) h st1).2 = Err e) ->
  commit now es w = (w', es', calls) ->
  calls = [Err e; Ok es']
  /\ uncommittedEvents es' = []
  /\ events es' = events es ++ uncommittedEvents es
  /\ dispatcher w' = dispatcher w ++ uncommittedEvents es.
Proof.
  intros Hst Hid Hadd Hc.
  rewrite (commit_with_id es w st st1 id Hst Hid) in Hc.
  rewrite Hadd in Hc. by injection Hc as <- <- <-.
Qed.

End Commit.

(** ** Concrete runs of the commit protocol *)

Lemma twoPending_wf : wellFormed twoPending.2 twoPending.1.
Proof.
  pose (one := addEvent (Js.VStr "p1") (newEventStream "A" []) []).
  change (wellFormed (addEvent (Js.VStr "p2") one.1 one.2).2
                     (addEvent (Js.VStr "p2") one.1 one.2).1).
  apply addEvent_wellFormed. apply addEvent_wellFormed.
  apply newEventStream_wellFormed.
  intros l Hl. by apply elem_of_nil in Hl.
Qed.

(** C1, as stated, fails on both counts. With a clock that advances between
    the two [new Date()] of the loop, the two events of one commit carry
    the stamps 1000 and 1001. With an event whose flag was set before the
    commit, the flag is still set after it: [commit] does not write
    [dispatched]. *)
Lemma commit_as_claimed_counterexample :
  ~ commit_as_claimed tickingClock twoPending.1 (worldOf twoPending.2)
  /\ ~ commit_as_claimed steadyClock onePendingFlagged.1
         (worldOf onePendingFlagged.2).
Proof.
  split; intros (id & stamp & Hall).
  - destruct (Hall 0%nat 0%nat eq_refl) as (_ & _ & H0 & _).
    destruct (Hall 1%nat 1%nat eq_refl) as (_ & _ & H1 & _).
    vm_compute in H0, H1. congruence.
  - destruct (Hall 0%nat 0%nat eq_refl) as (_ & _ & _ & Hd).
    vm_compute in Hd. discriminate Hd.
Qed.

Lemma getId_answers (s : InMemory.Storage) :
  getId s = ((InMemory.getId s).1, Ok (InMemory.uuid (InMemory.uuids s))).
Proof. reflexivity. Qed.

Lemma firstId_drawn :
  getId InMemory.createStorage = (firstId.1, Ok firstId.2).
Proof. reflexivity. Qed.

(** [commit] on the in-memory storage, where the lookup of the stream of
    the first uncommitted event does not end at [Object.prototype]. *)
Lemma commit_in_memory_batch (now : nat -> Z) (es : EventStream)
    (w : World InMemory.Storage) (s : InMemory.Storage) :
  storage w = Some s ->
  (forall e0, uncommittedEvents es !! 0%nat = Some e0 ->
     Js.ownOrAbsent (InMemory.store s)
                    (Js.to_key (streamId (objects w !!! e0)))) ->
  let h1 := (commitLoop now (InMemory.uuid (InMemory.uuids s))
               (uncommittedEvents es) 0 (currentRevision (objects w) es)
               (objects w) (clockReads w)).1 in
  let reads1 := (commitLoop now (InMemory.uuid (InMemory.uuids s))
                   (uncommittedEvents es) 0 (currentRevision (objects w) es)
                   (objects w) (clockReads w)).2 in
  commit now es w
  = (mkWorld h1
       (Some (InMemory.addEvents (Some (uncommittedEvents es)) h1
                                 (InMemory.getId s).1).1)
       (dispatcher w ++ uncommittedEvents es) reads1,
     moved es, [Ok (moved es)]).
Proof.
  intros Hst Hkey. simpl.
  rewrite (commit_with_id now es w s _ _ Hst (getId_answers s)).
  cbv zeta.
  change (@addEvents InMemory.Storage inMemoryStorage)
    with InMemory.addEvents.
  set (h1 := (commitLoop now _ _ _ _ _ _).1).
  assert ((InMemory.addEvents (Some (uncommittedEvents es)) h1
                              (InMemory.getId s).1).2 = Ok tt) as ->;
    [|done].
  destruct (uncommittedEvents es) as [|e0 rest] eqn:Hunc; [done|].
  apply addEvents_reply.
  assert (streamId (h1 !!! e0) = streamId (objects w !!! e0)) as ->
    by (subst h1; apply commitLoop_keeps).
  by apply (Hkey e0).
Qed.

Lemma commit_seals_batch_witness :
  let after := objects (commit tickingClock twoPending.1
                               (worldOf twoPending.2)).1.1 in
  commitSequence (after !!! 1%nat) = Some 1
  /\ commitId (after !!! 1%nat) = Some firstId.2
  /\ commitStamp (after !!! 1%nat) = Some (tickingClock 1).
Proof.
  destruct (commit tickingClock twoPending.1 (worldOf twoPending.2))
    as [[w' es'] calls] eqn:Hc.
  destruct (commit_seals_batch tickingClock twoPending.1
              (worldOf twoPending.2) w' InMemory.createStorage
              firstId.1 firstId.2
              es' calls eq_refl firstId_drawn twoPending_wf Hc
              1%nat 1%nat eq_refl)
    as (Hseq & Hid & Hstamp & _).
  simpl. split; [exact Hseq|]. split; [exact Hid|exact Hstamp].
Defined.

Lemma fifthPending_wf : wellFormed fifthPending.2 fifthPending.1.
Proof.
  apply addEvent_wellFormed, newEventStream_wellFormed.
  intros l Hl.
  change (length (objects fourCommitted)) with 4%nat.
  apply list_elem_of_lookup in Hl as [i Hi].
  destruct i as [|[|[|[|i]]]]; simpl in Hi; try discriminate Hi;
    injection Hi as <-; lia.
Qed.

(** C2 (the code departs from it): the revisions of a stream do not
    always go on from the stored ones. [commit] counts from the greatest
    streamRevision among the events the EventStream was loaded with, and
    from -1 when it was loaded without events: [lastRevision] is -1 from
    the constructor on and is never set. With the revisions 0 to 3 stored
    for stream "A": after [createSnapshot("A", 3, ...)],
    [getFromSnapshot("A", -1)] hands over a stream without events, and
    [addEvent; commit] on it stores the revisions 0, 1, 2, 3, 0; after
    [getEventStream("A", 0, 2)], [addEvent; commit] stores
    0, 1, 2, 3, 2. *)
Theorem commit_restarts_revisions :
  storedRevisions "A" fourCommitted = [Some 0; Some 1; Some 2; Some 3]
  /\ (exists sn,
        getFromSnapshot "A" (-1) snapshotAtThree
        = [Ok (SnapOf sn, Some (newEventStream "A" []))]
        /\ revision sn = Some 3)
  /\ storedRevisions "A" resumedFromSnapshot
     = [Some 0; Some 1; Some 2; Some 3; Some 0]
  /\ getEventStream "A" 0 2 fourCommitted
     = Ok (newEventStream "A" [0; 1]%nat)
  /\ storedRevisions "A" resumedFromPart
     = [Some 0; Some 1; Some 2; Some 3; Some 2].
Proof.
  split; [vm_compute; reflexivity|].
  split; [eexists; split; vm_compute; reflexivity|].
  split; [vm_compute; reflexivity|].
  split; vm_compute; reflexivity.
Qed.

Lemma commit_addEvents_failure_witness :
  let r := @commit InMemory.Storage refusingStorage tickingClock
             twoPending.1 (worldOf twoPending.2) in
  r.2 = [Err "write failed"; Ok r.1.2]
  /\ uncommittedEvents r.1.2 = []
  /\ events r.1.2 = [0; 1]%nat
  /\ dispatcher r.1.1 = [0; 1]%nat.
Proof.
  destruct (@commit InMemory.Storage refusingStorage tickingClock
              twoPending.1 (worldOf twoPending.2))
    as [[w' es'] calls] eqn:Hc.
  exact (@commit_addEvents_failure InMemory.Storage refusingStorage
           tickingClock twoPending.1 (worldOf twoPending.2) w'
           InMemory.createStorage firstId.1 firstId.2
           "write failed" es' calls
           eq_refl firstId_drawn (fun _ => eq_refl) Hc).
Defined.

(** ** The stored log under commits of fully loaded streams *)

(** X20: when the EventStream holds the whole stored log of its stream
    (a stream that has a log already or whose streamId names no property
    of [Object.prototype]), that log carries 0, 1, 2, ..., the uncommitted
    events belong to the stream and the revisions stay within 2^53, the
    commit succeeds, and the stored log after it is the one of the
    EventStream, the batch behind the loaded events, and carries
    0, 1, 2, ... again. *)
Lemma commit_keeps_log_dense (now : nat -> Z) (sid : string)
    (es es' : EventStream) (w w' : World InMemory.Storage)
    (s : InMemory.Storage) (calls : list (reply EventStream)) :
  storage w = Some s ->
  wellFormed (objects w) es ->
  Js.ownOrAbsent (InMemory.store s) sid ->
  events es = default [] (InMemory.store s !! sid) ->
  dense (objects w) (events es) ->
  (forall l, l ∈ uncommittedEvents es ->
     streamId (objects w !!! l) = Some sid) ->
  Z.of_nat (length (events es ++ uncommittedEvents es)) <= Js.maxExact ->
  commit now es w = (w', es', calls) ->
  calls = [Ok es']
  /\ events es' = events es ++ uncommittedEvents es
  /\ exists s', storage w' = Some s'
       /\ default [] (InMemory.store s' !! sid) = events es'
       /\ dense (objects w') (events es').
Proof.
  intros Hst Hwf Hown Hfull Hdense Hsid _ Hc.
  rewrite (commit_in_memory_batch now es w s Hst) in Hc.
  2:{ intros e0 He0. rewrite (Hsid e0); [done|].
      by eapply list_elem_of_lookup_2. }
  cbv zeta in Hc.
  set (h1 := (commitLoop now _ _ _ _ _ _).1) in Hc.
  assert (dense h1 (events es ++ uncommittedEvents es)) as Hkept
    by (by apply commitLoop_keeps_dense).
  assert (forall l, uncommittedEvents es !! 0%nat = Some l ->
            streamId (h1 !!! l) = Some sid) as Hfirst.
  { intros l Hl. subst h1. destruct Hwf as (_ & Hnd & Hval & _).
    rewrite (commitLoop_sealed now _ _ _ _ _ _ 0%nat l Hnd Hval Hl).
    cbn [streamId seal]. apply Hsid. by eapply list_elem_of_lookup_2. }
  assert (default []
            (InMemory.store
               (InMemory.addEvents (Some (uncommittedEvents es)) h1
                                   (InMemory.getId s).1).1 !! sid)
          = events es ++ uncommittedEvents es) as Hlog.
  { clearbody h1. destruct (uncommittedEvents es) as [|e0 rest].
    - simpl. by rewrite app_nil_r, Hfull.
    - rewrite addEvents_store; rewrite (Hfirst e0 eq_refl); [|done].
      cbn [Js.to_key]. rewrite lookup_insert_eq. simpl. by rewrite Hfull. }
  injection Hc as <- <- <-.
  split; [done|]. split; [done|].
  eexists. split; [reflexivity|]. split; [exact Hlog|exact Hkept].
Qed.

(** ** The round trip addEvent; commit; getEventStream *)

Lemma str_or_null_nonempty (sid : string) :
  sid <> "" -> Js.str_or_null sid = Some sid.
Proof.
  intros Hne. unfold Js.str_or_null.
  by destruct (String.eqb_spec sid "").
Qed.

Lemma or_null_truthy (p : Js.value) :
  Js.truthy p = true -> Js.or_null p = p.
Proof. intros Ht. unfold Js.or_null. by rewrite Ht. Qed.

Lemma getEvents_answers (sid : string) (minRev maxRev : Z)
    (s : InMemory.Storage) :
  Js.ownOrAbsent (InMemory.store s) sid ->
  exists evts, InMemory.getEvents sid minRev maxRev s = Ok evts.
Proof. intros Hsid. rewrite getEvents_own by done. by eexists. Qed.

(** C7, as stated, fails for a falsy payload and for the empty streamId:
    the Event constructor stores [event || null] and [streamId || null].
    [addEvent(0)] is read back with payload [null]; on the stream loaded as
    [""] the event is stored under the key ["null"] and the stream [""] is
    read back empty. *)
Lemma roundTrip_yields_counterexample :
  roundTrip tickingClock "A" 0 (-1) (Js.VNum 0) (worldOf []) = Ok [Js.VNull]
  /\ ~ roundTrip_yields tickingClock "A" 0 (-1) (Js.VNum 0) (worldOf [])
  /\ roundTrip tickingClock "" 0 (-1) (Js.VStr "p") (worldOf []) = Ok []
  /\ ~ roundTrip_yields tickingClock "" 0 (-1) (Js.VStr "p") (worldOf []).
Proof.
  assert (roundTrip tickingClock "A" 0 (-1) (Js.VNum 0) (worldOf [])
          = Ok [Js.VNull]) as Hzero by (vm_compute; reflexivity).
  assert (roundTrip tickingClock "" 0 (-1) (Js.VStr "p") (worldOf [])
          = Ok []) as Hempty by (vm_compute; reflexivity).
  split; [exact Hzero|]. split; [|split; [exact Hempty|]].
  - intros (ps & Hps & Hin). rewrite Hzero in Hps. injection Hps as <-.
    apply list_elem_of_singleton in Hin. discriminate Hin.
  - intros (ps & Hps & Hin). rewrite Hempty in Hps. injection Hps as <-.
    by apply elem_of_nil in Hin.
Qed.

(** C7 (amended): for every truthy payload p and every non-empty streamId
    that has stored events or does not name a property of
    [Object.prototype], on a store with the in-memory storage, loading the
    stream, [addEvent(p)], [commit()] and [getEventStream(streamId, 0, -1)]
    yield an EventStream that holds an event whose payload is p. *)
Theorem roundTrip_payload (now : nat -> Z) (sid : string) (revMin revMax : Z)
    (p : Js.value) (w : World InMemory.Storage) (s : InMemory.Storage) :
  storage w = Some s -> sid <> "" ->
  Js.ownOrAbsent (InMemory.store s) sid ->
  Js.truthy p = true ->
  roundTrip_yields now sid revMin revMax p w.
Proof.
  intros Hst Hsid Hown Hp. unfold roundTrip_yields, roundTrip.
  unfold getEventStream at 1. rewrite Hst.
  change (getEvents sid revMin revMax s)
    with (InMemory.getEvents sid revMin revMax s).
  destruct (getEvents_answers sid revMin revMax s Hown) as [evts ->].
  cbv beta iota. unfold addEvent, alloc, newEventStream.
  cbn [es_streamId events uncommittedEvents lastRevision app].
  set (h1 := objects w ++ [newEvent sid p]).
  set (l := length (objects w)).
  set (es1 := {| es_streamId := sid; events := evts;
                 uncommittedEvents := [l]; lastRevision := -1 |}).
  set (w1 := mkWorld h1 (Some s) (dispatcher w) (clockReads w)).
  assert (h1 !!! l = newEvent sid p) as Hnew.
  { subst h1 l. by apply list_lookup_total_middle. }
  assert (l < length h1)%nat as Hl.
  { subst h1 l. rewrite length_app. simpl. lia. }
  assert (streamId (h1 !!! l) = Some sid) as Hkey.
  { rewrite Hnew. simpl. by apply str_or_null_nonempty. }
  rewrite (commit_in_memory_batch now es1 w1 s eq_refl);
    [|intros e0 [= <-]; cbn [objects w1]; by rewrite Hkey].
  cbv zeta. cbn [last].
  cbn [uncommittedEvents es1 commitLoop fst snd objects clockReads w1].
  set (sealed := seal _ _ _ _ _).
  set (h2 := <[l := sealed]> h1).
  assert (h2 !!! l = sealed) as Hsealed
    by (by apply list_lookup_total_insert_eq).
  assert (streamId (h2 !!! l) = Some sid) as Hkey2.
  { rewrite Hsealed. subst sealed. simpl. by rewrite Hkey. }
  assert (payload (h2 !!! l) = p) as Hpay.
  { rewrite Hsealed. subst sealed. simpl. rewrite Hnew. simpl.
    by apply or_null_truthy. }
  set (s2 := (InMemory.addEvents (Some [l]) h2 (InMemory.getId s).1).1).
  assert (InMemory.store s2 !! sid
          = Some (default [] (InMemory.store s !! sid) ++ [l])) as Hlog.
  { subst s2. rewrite addEvents_store; rewrite Hkey2; [|done].
    cbn [Js.to_key]. by rewrite lookup_insert_eq. }
  unfold getEventStream. cbn [storage].
  change (getEvents sid 0 (-1) s2) with (InMemory.getEvents sid 0 (-1) s2).
  rewrite getEvents_own by (left; by rewrite Hlog).
  rewrite Hlog. cbn [Z.eqb Pos.eqb]. rewrite slice_from, drop_0 by done.
  eexists. split; [reflexivity|]. cbn [events newEventStream objects].
  apply list_elem_of_fmap. exists l. split; [done|].
  apply elem_of_app. right. by left.
Qed.

Lemma roundTrip_payload_witness :
  roundTrip_yields tickingClock "A" 0 (-1) (Js.VStr "p1") (worldOf []).
Proof.
  apply (roundTrip_payload tickingClock "A" 0 (-1) (Js.VStr "p1")
           (worldOf []) InMemory.createStorage).
  - reflexivity.
  - discriminate.
  - right. reflexivity.
  - reflexivity.
Defined.

(** ** Store.getFromSnapshot *)

Lemma elem_of_positionsBetween {A : Type} (minRev maxRev : Z) (log : list A)
    (x : A) :
  x ∈ positionsBetween minRev maxRev log
  <-> exists i, log !! i = Some x /\ inRange minRev maxRev i.
Proof.
  unfold positionsBetween, positionsFrom. rewrite list_elem_of_fmap. split.
  - intros ([i y] & -> & Hin).
    apply list_elem_of_filter in Hin as [Hr Hin].
    apply elem_of_lookup_imap in Hin as (j & z & Heq & Hj).
    injection Heq as -> ->. by exists j.
  - intros (i & Hi & Hr). exists (i, x). split; [done|].
    apply list_elem_of_filter. split; [done|].
    apply elem_of_lookup_imap. by exists i, x.
Qed.

(** C4, as stated, fails at the upper bound: [getEvents] leaves out the
    position [maxRev]. With revisions 0 to 3 stored and a snapshot at
    revision 1, [getFromSnapshot("A", 3)] hands over the stream holding the
    event of revision 2 only; revision 3 lies in (1, 3] and is missing. *)
Lemma fromSnapshot_as_claimed_counterexample :
  (exists sn, getFromSnapshot "A" 3 fourCommitted
              = [Ok (SnapOf sn, Some (newEventStream "A" [2%nat]))]
              /\ revision sn = Some 1)
  /\ streamRevision (objects fourCommitted !!! 3%nat) = Some 3
  /\ ~ fromSnapshot_as_claimed "A" 3 fourCommitted.
Proof.
  assert (getFromSnapshot "A" 3 fourCommitted
          = [Ok (SnapOf (mkSnapshot (Some (InMemory.uuid 1)) "A" (Some 1)
                                    (Js.VStr "state")),
                 Some (newEventStream "A" [2%nat]))]) as Hget
    by (vm_compute; reflexivity).
  split; [by eexists|]. split; [vm_compute; reflexivity|].
  intros (snap & stream & Hget' & Hclaim & _).
  rewrite Hget in Hget'. injection Hget' as <- <-.
  destruct (Hclaim _ 1 eq_refl eq_refl) as [_ Hnonempty].
  destruct Hnonempty as [_ Hcover]; [done|].
  destruct fourCommitted as [h [s|] q n] eqn:Hw; [|vm_compute in Hw; done].
  assert (InMemory.store s !! "A" = Some [0; 1; 2; 3]%nat) as Hlog.
  { vm_compute in Hw. injection Hw as _ <- _ _. vm_compute. reflexivity. }
  assert (streamRevision (h !!! 3%nat) = Some 3) as Hrev.
  { vm_compute in Hw. injection Hw as <- _ _ _. reflexivity. }
  specialize (Hcover s _ 3%nat 3 eq_refl Hlog).
  destruct Hcover as [_ Hback].
  - do 3 apply list_elem_of_further. apply list_elem_of_here.
  - exact Hrev.
  - assert (3%nat ∈ [2%nat]) as Hin by (apply Hback; lia).
    apply list_elem_of_singleton in Hin. discriminate Hin.
Qed.

Lemma getSnapshot_total (sid : string) (maxRev : Z) (s : InMemory.Storage) :
  Js.ownOrAbsent (InMemory.snapshots s) sid ->
  snapshotAnswered sid maxRev s ->
  exists snap,
    InMemory.getSnapshot sid maxRev s = Some (Ok snap)
    /\ forall sn, snap = SnapOf sn ->
         exists snaps, InMemory.snapshots s !! sid = Some snaps /\ sn ∈ snaps.
Proof.
  intros Hsid Hans. unfold snapshotAnswered in Hans.
  destruct (InMemory.snapshots s !! sid) as [snaps|] eqn:Hs.
  - destruct (Hans snaps eq_refl) as [->|(sn & Hin & Hup)].
    + unfold InMemory.getSnapshot. rewrite (get_own _ _ _ Hs). simpl.
      destruct (snaps !! (length snaps - 1)%nat) as [sn|] eqn:Hlast.
      * exists (SnapOf sn). split; [done|]. intros ? [= <-].
        exists snaps. split; [done|]. by eapply list_elem_of_lookup_2.
      * exists SnapUndefined. split; [done|]. by intros.
    + destruct (getSnapshot_qualifying sid maxRev s snaps sn Hs Hin Hup)
        as (sn' & Hget & Hin').
      exists (SnapOf sn'). split; [done|]. intros ? [= <-].
      by exists snaps.
  - exists SnapEmpty. unfold InMemory.getSnapshot.
    rewrite (get_ownOrAbsent _ _ Hsid), Hs.
    split; [done|]. by intros.
Qed.

(** The events [getEventStream] loads over a log that carries its
    positions as revisions, for bounds that are not counted from the end:
    those with a revision between the bounds. *)
Lemma getEventStream_window (sid : string) (minRev maxRev : Z)
    (w : World InMemory.Storage) (s : InMemory.Storage) :
  storage w = Some s ->
  Js.ownOrAbsent (InMemory.store s) sid ->
  0 <= minRev -> -1 <= maxRev ->
  (forall log, InMemory.store s !! sid = Some log -> dense (objects w) log) ->
  exists stream,
    getEventStream sid minRev maxRev w = Ok stream
    /\ (forall l, l ∈ events stream ->
          exists r, streamRevision (objects w !!! l) = Some r
            /\ minRev <= r /\ (maxRev = -1 \/ r < maxRev))
    /\ (forall log l r,
          InMemory.store s !! sid = Some log -> l ∈ log ->
          streamRevision (objects w !!! l) = Some r ->
          minRev <= r /\ (maxRev = -1 \/ r < maxRev) ->
          l ∈ events stream).
Proof.
  intros Hst Hsid Hmin Hmax Hdense.
  set (evts := match InMemory.store s !! sid with
               | Some log => positionsBetween minRev maxRev log
               | None => []
               end).
  exists (newEventStream sid evts). split; [|split].
  - unfold getEventStream. rewrite Hst.
    change (getEvents sid minRev maxRev s)
      with (InMemory.getEvents sid minRev maxRev s).
    rewrite (getEvents_own sid minRev maxRev s Hsid). subst evts.
    destruct (InMemory.store s !! sid) as [log|]; [|done].
    by rewrite slice_positionsBetween.
  - intros l Hl. simpl in Hl. subst evts.
    destruct (InMemory.store s !! sid) as [log|] eqn:Hlog;
      [|by apply elem_of_nil in Hl].
    apply elem_of_positionsBetween in Hl as (i & Hi & Hr).
    exists (Z.of_nat i). split; [by apply (Hdense log)|exact Hr].
  - intros log l r Hlog Hl Hr Hrange. simpl. subst evts. rewrite Hlog.
    apply list_elem_of_lookup in Hl as [i Hi].
    apply elem_of_positionsBetween. exists i. split; [done|].
    pose proof (Hdense log Hlog i l Hi) as Hrev.
    rewrite Hr in Hrev. injection Hrev as ->. exact Hrange.
Qed.

(** C4 (amended): for every streamId whose lookups do not end at
    [Object.prototype] and every [maxRev >= -1] for which the storage's
    [getSnapshot] answers, over a log that carries its positions as
    revisions and snapshots with a revision from -1 to below 2^53,
    [getFromSnapshot] hands over a pair (snap, stream) where the stream is
    the one loaded from [snap.revision + 1], [snap.revision] is less than
    the [streamRevision] of the first event of the stream, and the stream
    holds exactly the events with a revision r such that
    [snap.revision < r < maxRev], or [snap.revision < r] when [maxRev] is
    -1; when the snapshot handed over has no revision, the stream is the
    one loaded from 0 and holds exactly the events with a revision below
    [maxRev], or all events when [maxRev] is -1. *)
Theorem getFromSnapshot_window (sid : string) (maxRev : Z)
    (w : World InMemory.Storage) (s : InMemory.Storage) :
  storage w = Some s ->
  -1 <= maxRev ->
  Js.ownOrAbsent (InMemory.store s) sid ->
  Js.ownOrAbsent (InMemory.snapshots s) sid ->
  snapshotAnswered sid maxRev s ->
  (forall log, InMemory.store s !! sid = Some log -> dense (objects w) log) ->
  (forall snaps sn r,
     InMemory.snapshots s !! sid = Some snaps -> sn ∈ snaps ->
     revision sn = Some r -> -1 <= r < Js.maxExact) ->
  fromSnapshot_window sid maxRev w.
Proof.
  intros Hst Hmax Hlogs Hsnaps Hans Hdense Hrevs.
  destruct (getSnapshot_total sid maxRev s Hsnaps Hans)
    as (snap & Hsnap & Hfrom).
  assert (0 <= startRevision snap) as Hstart.
  { destruct snap as [| |sn]; simpl; [lia|lia|].
    destruct (revision sn) as [r|] eqn:Hr; [|lia].
    destruct (Hfrom sn eq_refl) as (snaps & Hs & Hin).
    specialize (Hrevs snaps sn r Hs Hin Hr). lia. }
  destruct (getEventStream_window sid (startRevision snap) maxRev w s
              Hst Hlogs Hstart Hmax Hdense)
    as (stream & Hload & Hin & Hall).
  exists snap, stream. split; [|split].
  - unfold getFromSnapshot. rewrite Hst.
    change (getSnapshot sid maxRev s) with (InMemory.getSnapshot sid maxRev s).
    by rewrite Hsnap, Hload.
  - intros sn r0 -> Hr0. simpl in Hload, Hin, Hall.
    rewrite Hr0 in Hload, Hin, Hall.
    split; [exact Hload|]. split.
    + intros l0 Hfirst. apply list_elem_of_lookup_2 in Hfirst.
      destruct (Hin l0 Hfirst) as (r & Hr & Hlo & _).
      exists r. split; [done|lia].
    + intros s' log l r Hst' Hlog Hl Hr.
      rewrite Hst in Hst'. injection Hst' as <-. split.
      * intros Hevt. destruct (Hin l Hevt) as (r' & Hr' & Hlo & Hhi).
        rewrite Hr in Hr'. injection Hr' as <-. split; [lia|done].
      * intros [Hlo Hhi]. apply (Hall log l r Hlog Hl Hr).
        split; [lia|done].
  - intros Hnone.
    assert (startRevision snap = 0) as Hzero.
    { destruct snap as [| |sn]; [done|done|].
      simpl. by rewrite (Hnone sn eq_refl). }
    rewrite Hzero in Hload, Hin, Hall.
    split; [exact Hload|].
    intros s' log l r Hst' Hlog Hl Hr.
    rewrite Hst in Hst'. injection Hst' as <-. split.
    + intros Hevt. destruct (Hin l Hevt) as (r' & Hr' & _ & Hhi).
      rewrite Hr in Hr'. by injection Hr' as <-.
    + intros Hhi. apply (Hall log l r Hlog Hl Hr). split; [|done].
      apply list_elem_of_lookup in Hl as [i Hi].
      pose proof (Hdense log Hlog i l Hi) as Hrev.
      rewrite Hr in Hrev. injection Hrev as ->. lia.
Qed.

Lemma getFromSnapshot_window_witness :
  fromSnapshot_window "A" 3 fourCommitted.
Proof.
  apply (getFromSnapshot_window "A" 3 fourCommitted fourStored).
  - vm_compute. reflexivity.
  - lia.
  - right. reflexivity.
  - right. reflexivity.
  - intros snaps Hs. right. vm_compute in Hs. injection Hs as <-.
    eexists. split; [apply list_elem_of_here|reflexivity].
  - intros log Hlog i l Hi. vm_compute in Hlog. injection Hlog as <-.
    destruct i as [|[|[|[|i]]]]; simpl in Hi; try discriminate Hi;
      injection Hi as <-; vm_compute; reflexivity.
  - intros snaps sn r Hs Hin Hr. vm_compute in Hs. injection Hs as <-.
    apply list_elem_of_singleton in Hin as ->.
    injection Hr as <-. unfold Js.maxExact. lia.
Defined.

(** * Further properties of the storage *)

(** ** Storage.addSnapshot and Storage.getSnapshot *)

Lemma addSnapshot_snapshots (snap : Snapshot) (s : InMemory.Storage) :
  Js.ownOrAbsent (InMemory.snapshots s) (snap_streamId snap) ->
  InMemory.snapshots (InMemory.addSnapshot snap s).1
  = <[snap_streamId snap :=
        default [] (InMemory.snapshots s !! snap_streamId snap) ++ [snap]]>
      (InMemory.snapshots s).
Proof.
  intros Hk. unfold InMemory.addSnapshot.
  rewrite (get_ownOrAbsent _ _ Hk).
  destruct (InMemory.snapshots s !! _) as [snaps|] eqn:Hsnaps; simpl.
  - by rewrite (lookup_total_correct _ _ _ Hsnaps).
  - by rewrite lookup_total_insert_eq, insert_insert_eq.
Qed.

Lemma addSnapshot_reply (snap : Snapshot) (s : InMemory.Storage) :
  Js.ownOrAbsent (InMemory.snapshots s) (snap_streamId snap) ->
  (InMemory.addSnapshot snap s).2 = Ok tt.
Proof.
  intros Hk. unfold InMemory.addSnapshot.
  rewrite (get_ownOrAbsent _ _ Hk).
  by destruct (InMemory.snapshots s !! _).
Qed.

(** The event logs and the id counter are out of the reach of
    [addSnapshot]. *)
Lemma addSnapshot_rest (snap : Snapshot) (s : InMemory.Storage) :
  InMemory.store (InMemory.addSnapshot snap s).1 = InMemory.store s
  /\ InMemory.uuids (InMemory.addSnapshot snap s).1 = InMemory.uuids s.
Proof. unfold InMemory.addSnapshot. by destruct (Js.get _ _). Qed.

(** For a first snapshot under a streamId that names a property of
    [Object.prototype], the list is not created and the call of [.push]
    throws. *)
Lemma addSnapshot_thrown (snap : Snapshot) (s : InMemory.Storage) :
  InMemory.snapshots s !! snap_streamId snap = None ->
  is_Some (Js.inherited (snap_streamId snap)) ->
  InMemory.addSnapshot snap s = (s, Thrown Js.typeError).
Proof.
  intros Hk [len Hin]. unfold InMemory.addSnapshot.
  by rewrite (get_inherited _ _ len Hk Hin).
Qed.

Lemma addSnapshot_cases (snap : Snapshot) (s : InMemory.Storage) :
  Js.ownOrAbsent (InMemory.snapshots s) (snap_streamId snap)
  \/ InMemory.addSnapshot snap s = (s, Thrown Js.typeError).
Proof.
  unfold Js.ownOrAbsent.
  destruct (InMemory.snapshots s !! _) as [snaps|] eqn:Hk;
    [left; left; eauto|].
  destruct (Js.inherited (snap_streamId snap)) as [len|] eqn:Hin.
  - right. apply addSnapshot_thrown; [done|]. rewrite Hin. by eexists.
  - left. by right.
Qed.

(** X1: for a stream that has snapshots already or whose streamId names no
    property of [Object.prototype], [addSnapshot] succeeds and puts the
    snapshot at the end of the snapshots of its stream; the snapshots of
    every other stream and the event logs are unchanged. For a first
    snapshot under an inherited name the call throws and the storage is
    as before. *)
Theorem addSnapshot_appends (snap : Snapshot) (s : InMemory.Storage) :
  let r := InMemory.addSnapshot snap s in
  (Js.ownOrAbsent (InMemory.snapshots s) (snap_streamId snap) ->
     r.2 = Ok tt
     /\ InMemory.snapshots r.1 !! snap_streamId snap
        = Some (default [] (InMemory.snapshots s !! snap_streamId snap)
                ++ [snap])
     /\ (forall k, k <> snap_streamId snap ->
           InMemory.snapshots r.1 !! k = InMemory.snapshots s !! k)
     /\ InMemory.store r.1 = InMemory.store s)
  /\ (InMemory.snapshots s !! snap_streamId snap = None ->
      is_Some (Js.inherited (snap_streamId snap)) ->
      r = (s, Thrown Js.typeError)).
Proof.
  intros r. subst r. split.
  - intros Hk. rewrite addSnapshot_reply, addSnapshot_snapshots by done.
    split; [done|]. split; [by rewrite lookup_insert_eq|].
    split; [|apply addSnapshot_rest].
    intros k Hne. by rewrite lookup_insert_ne.
  - apply addSnapshot_thrown.
Qed.

Lemma addSnapshot_appends_witness :
  (InMemory.addSnapshot (mkSnapshot (Some "s2") "A" (Some 7) Js.VNull)
                        snapshotAtFive).2 = Ok tt
  /\ InMemory.addSnapshot
       (mkSnapshot (Some "s1") "toString" (Some 5) Js.VNull)
       InMemory.createStorage
     = (InMemory.createStorage, Thrown Js.typeError).
Proof.
  split.
  - apply (addSnapshot_appends
             (mkSnapshot (Some "s2") "A" (Some 7) Js.VNull) snapshotAtFive).
    right. reflexivity.
  - apply (addSnapshot_appends
             (mkSnapshot (Some "s1") "toString" (Some 5) Js.VNull)
             InMemory.createStorage).
    + reflexivity.
    + eexists. reflexivity.
Defined.

Lemma scanSnapshots_last (snaps : list Snapshot) (snap : Snapshot)
    (maxRev : Z) :
  InMemory.upTo maxRev snap = true ->
  InMemory.scanSnapshots (snaps ++ [snap]) maxRev (length (snaps ++ [snap]))
  = Some snap.
Proof.
  intros Hup. rewrite length_app. simpl.
  replace (length snaps + 1)%nat with (S (length snaps)) by lia. simpl.
  by rewrite list_lookup_middle, Hup.
Qed.

(** X2: for a stream that has snapshots already or whose streamId names
    no property of [Object.prototype], the snapshot that was added last is
    the one [getSnapshot] hands over for its stream, with [maxRev = -1]
    whatever its revision, and with another [maxRev] when its revision is
    at most [maxRev]. *)
Theorem getSnapshot_after_addSnapshot (snap : Snapshot) (maxRev : Z)
    (s : InMemory.Storage) :
  Js.ownOrAbsent (InMemory.snapshots s) (snap_streamId snap) ->
  maxRev = -1 \/ InMemory.upTo maxRev snap = true ->
  InMemory.getSnapshot (snap_streamId snap) maxRev
                       (InMemory.addSnapshot snap s).1
  = Some (Ok (SnapOf snap)).
Proof.
  intros Hk Hq. unfold InMemory.getSnapshot.
  set (snaps := default [] (InMemory.snapshots s !! snap_streamId snap)).
  rewrite (get_own _ _ (snaps ++ [snap]))
    by (by rewrite addSnapshot_snapshots, lookup_insert_eq).
  destruct (Z.eqb_spec maxRev (-1)) as [_|Hne].
  - rewrite length_app. simpl.
    replace (length snaps + 1 - 1)%nat with (length snaps) by lia.
    by rewrite list_lookup_middle.
  - destruct Hq as [Hq|Hq]; [done|].
    by rewrite scanSnapshots_last.
Qed.

Lemma getSnapshot_after_addSnapshot_witness :
  InMemory.getSnapshot "A" (-1)
    (InMemory.addSnapshot (mkSnapshot (Some "s2") "A" (Some 2) Js.VNull)
                          snapshotAtFive).1
  = Some (Ok (SnapOf (mkSnapshot (Some "s2") "A" (Some 2) Js.VNull))).
Proof.
  apply (getSnapshot_after_addSnapshot
           (mkSnapshot (Some "s2") "A" (Some 2) Js.VNull) (-1)
           snapshotAtFive).
  - right. reflexivity.
  - by left.
Defined.

(** X3: when the stream has a snapshot whose revision is at most [maxRev]
    (and [maxRev] is not -1), [getSnapshot] answers with the one of them
    that was added last: every snapshot added after it has a revision above
    [maxRev] or none. The choice goes by the order of insertion, not by the
    greatest revision. *)
Theorem getSnapshot_latest (sid : string) (maxRev : Z)
    (s : InMemory.Storage) (snaps : list Snapshot) (sn : Snapshot) :
  InMemory.snapshots s !! sid = Some snaps ->
  maxRev <> -1 ->
  sn ∈ snaps -> InMemory.upTo maxRev sn = true ->
  exists i snap,
    InMemory.getSnapshot sid maxRev s = Some (Ok (SnapOf snap))
    /\ snaps !! i = Some snap
    /\ InMemory.upTo maxRev snap = true
    /\ forall j snap', (i < j)%nat -> snaps !! j = Some snap' ->
         InMemory.upTo maxRev snap' = false.
Proof.
  intros Hs Hne Hin Hup. unfold InMemory.getSnapshot. rewrite (get_own _ _ _ Hs).
  destruct (Z.eqb_spec maxRev (-1)) as [|_]; [done|].
  destruct (InMemory.scanSnapshots snaps maxRev (length snaps)) as [snap|]
    eqn:Hscan.
  - destruct (scanSnapshots_Some _ _ _ _ Hscan) as (i & Hi & Hsn & Hq & Hl).
    exists i, snap. split; [done|]. split; [done|]. split; [done|].
    intros j snap' Hj Hs'. apply (Hl j); [|done].
    split; [done|]. by apply lookup_lt_Some in Hs'.
  - rewrite scanSnapshots_None in Hscan.
    apply list_elem_of_lookup in Hin as [i Hi].
    rewrite (Hscan i sn) in Hup; [done| |done].
    by apply lookup_lt_Some in Hi.
Qed.

Lemma getSnapshot_latest_witness :
  exists snap,
    InMemory.getSnapshot "A" 7
      (InMemory.addSnapshot (mkSnapshot (Some "s2") "A" (Some 2) Js.VNull)
                            snapshotAtFive).1
    = Some (Ok (SnapOf snap))
    /\ revision snap = Some 2.
Proof.
  destruct (getSnapshot_latest "A" 7
              (InMemory.addSnapshot
                 (mkSnapshot (Some "s2") "A" (Some 2) Js.VNull)
                 snapshotAtFive).1
              [mkSnapshot (Some "s1") "A" (Some 5) Js.VNull;
               mkSnapshot (Some "s2") "A" (Some 2) Js.VNull]
              (mkSnapshot (Some "s1") "A" (Some 5) Js.VNull))
    as (i & snap & Hget & Hi & _ & Hlater).
  - vm_compute. reflexivity.
  - lia.
  - apply list_elem_of_here.
  - reflexivity.
  - exists snap. split; [exact Hget|].
    destruct i as [|[|i]]; simpl in Hi; try discriminate Hi;
      injection Hi as <-; [|reflexivity].
    specialize (Hlater 1%nat _ ltac:(lia) eq_refl). discriminate Hlater.
Defined.

(** ** The lists the storage keeps are never empty *)

Lemma storageStep_nonempty (x y : list Event * InMemory.Storage) :
  storageStep x y ->
  (forall k log, InMemory.store x.2 !! k = Some log -> log <> [])
  /\ (forall k snaps, InMemory.snapshots x.2 !! k = Some snaps ->
        snaps <> []) ->
  (forall k log, InMemory.store y.2 !! k = Some log -> log <> [])
  /\ (forall k snaps, InMemory.snapshots y.2 !! k = Some snaps ->
        snaps <> []).
Proof.
  intros Hstep [Hlogs Hsnaps].
  destruct Hstep as [evts h s|snap h s| | | |]; cbn [fst snd] in *;
    try done.
  - split; [|by rewrite (proj1 (addEvents_rest evts h s))].
    destruct evts as [[|e0 rest]|]; [done| |done].
    destruct (addEvents_cases e0 rest h s) as [Hown| ->]; [|done].
    intros k log. rewrite addEvents_store by done.
    destruct (decide (Js.to_key (streamId (h !!! e0)) = k)) as [->|Hne].
    + rewrite lookup_insert_eq. intros [= <-].
      by destruct (default [] _).
    + rewrite lookup_insert_ne by done. apply Hlogs.
  - split; [by rewrite (proj1 (addSnapshot_rest snap s))|].
    destruct (addSnapshot_cases snap s) as [Hown| ->]; [|done].
    intros k snaps. rewrite addSnapshot_snapshots by done.
    destruct (decide (snap_streamId snap = k)) as [->|Hne].
    + rewrite lookup_insert_eq. intros [= <-].
      by destruct (default [] _).
    + rewrite lookup_insert_ne by done. apply Hsnaps.
Qed.

Lemma storageSteps_nonempty (x y : list Event * InMemory.Storage) :
  rtc storageStep x y ->
  (forall k log, InMemory.store x.2 !! k = Some log -> log <> [])
  /\ (forall k snaps, InMemory.snapshots x.2 !! k = Some snaps ->
        snaps <> []) ->
  (forall k log, InMemory.store y.2 !! k = Some log -> log <> [])
  /\ (forall k snaps, InMemory.snapshots y.2 !! k = Some snaps ->
        snaps <> []).
Proof.
  induction 1 as [|x y z Hxy _ IH]; [done|].
  intros Hx. apply IH. by eapply storageStep_nonempty.
Qed.

(** X4: in a storage that was created empty and used through its
    operations, no stream has an empty event log or an empty list of
    snapshots; so [getSnapshot(streamId, -1)] hands over the newest
    snapshot of a stream that has snapshots, and for a stream without
    them the empty object, or [undefined] when the streamId names a
    property of [Object.prototype]. *)
Theorem storage_lists_nonempty (h0 h : list Event) (s : InMemory.Storage) :
  rtc storageStep (h0, InMemory.createStorage) (h, s) ->
  (forall k log, InMemory.store s !! k = Some log -> log <> [])
  /\ (forall k snaps, InMemory.snapshots s !! k = Some snaps -> snaps <> [])
  /\ forall k,
       match InMemory.snapshots s !! k with
       | None =>
           match Js.inherited k with
           | None => InMemory.getSnapshot k (-1) s = Some (Ok SnapEmpty)
           | Some _ =>
               InMemory.getSnapshot k (-1) s = Some (Ok SnapUndefined)
           end
       | Some snaps =>
           exists snap, last snaps = Some snap
             /\ InMemory.getSnapshot k (-1) s = Some (Ok (SnapOf snap))
       end.
Proof.
  intros Hsteps.
  assert ((forall k log, InMemory.store s !! k = Some log -> log <> [])
          /\ (forall k snaps, InMemory.snapshots s !! k = Some snaps ->
                snaps <> [])) as [Hlogs Hsnaps].
  { apply (storageSteps_nonempty _ _ Hsteps). simpl.
    split; intros k l; by rewrite lookup_empty. }
  split; [done|]. split; [done|]. intros k.
  unfold InMemory.getSnapshot, Js.get.
  destruct (InMemory.snapshots s !! k) as [snaps|] eqn:Hk;
    [|by destruct (Js.inherited k)].
  simpl. rewrite last_lookup.
  replace (pred (length snaps)) with (length snaps - 1)%nat by lia.
  destruct (snaps !! (length snaps - 1)%nat) as [snap|] eqn:Hlast.
  - by exists snap.
  - apply lookup_ge_None in Hlast. specialize (Hsnaps k snaps Hk).
    destruct snaps; [done|]. simpl in Hlast. lia.
Qed.

Lemma storage_lists_nonempty_witness :
  InMemory.getSnapshot "A" (-1) snapshotAtFive
  = Some (Ok (SnapOf (mkSnapshot (Some "s1") "A" (Some 5) Js.VNull)))
  /\ InMemory.getSnapshot "valueOf" (-1) snapshotAtFive
     = Some (Ok SnapUndefined).
Proof.
  assert (rtc storageStep ([], InMemory.createStorage) ([], snapshotAtFive))
    as Hsteps.
  { apply rtc_once.
    apply (step_addSnapshot (mkSnapshot (Some "s1") "A" (Some 5) Js.VNull)). }
  destruct (storage_lists_nonempty [] [] snapshotAtFive Hsteps)
    as (_ & _ & Hget).
  split.
  - specialize (Hget "A").
    change (InMemory.snapshots snapshotAtFive !! "A")
      with (Some [mkSnapshot (Some "s1") "A" (Some 5) Js.VNull]) in Hget.
    destruct Hget as (snap & Hlast & Hget). injection Hlast as <-.
    exact Hget.
  - specialize (Hget "valueOf").
    change (InMemory.snapshots snapshotAtFive !! "valueOf")
      with (@None (list Snapshot)) in Hget.
    exact Hget.
Defined.

(** ** Storage.getEvents on arbitrary bounds *)

Lemma slice_segment {A : Type} (start : Z) (stop : option Z) (arr : list A) :
  exists before after, arr = before ++ Js.slice start stop arr ++ after.
Proof.
  unfold Js.slice.
  set (k := Z.to_nat (Js.clamp _ start)). set (n := Z.to_nat _).
  exists (take k arr), (drop n (drop k arr)).
  by rewrite (take_drop n), (take_drop k).
Qed.

(** X5: whatever the bounds, negative ones included, [getEvents] returns a
    contiguous piece of the log of the stream: the log is the result with
    some events before and some behind it, so nothing is reordered,
    repeated or taken from another stream. *)
Theorem getEvents_segment (sid : string) (minRev maxRev : Z)
    (s : InMemory.Storage) (log : list loc) :
  InMemory.store s !! sid = Some log ->
  exists r before after,
    InMemory.getEvents sid minRev maxRev s = Ok r
    /\ log = before ++ r ++ after.
Proof.
  intros Hlog. unfold InMemory.getEvents. rewrite (get_own _ _ _ Hlog).
  destruct (maxRev =? -1).
  - destruct (slice_segment minRev None log) as (before & after & Heq).
    by eexists _, before, after.
  - destruct (slice_segment minRev (Some maxRev) log)
      as (before & after & Heq).
    by eexists _, before, after.
Qed.

Lemma getEvents_segment_witness :
  exists before after,
    InMemory.getEvents "A" (-2) (-1) threeStored = Ok [1; 2]%nat
    /\ [0; 1; 2]%nat = before ++ [1; 2]%nat ++ after.
Proof.
  destruct (getEvents_segment "A" (-2) (-1) threeStored [0; 1; 2]%nat)
    as (r & before & after & Hget & Hlog).
  - vm_compute. reflexivity.
  - assert (r = [1; 2]%nat) as ->.
    { assert (InMemory.getEvents "A" (-2) (-1) threeStored = Ok [1; 2]%nat)
        as Hc by (vm_compute; reflexivity).
      rewrite Hc in Hget. by injection Hget. }
    by exists before, after.
Defined.

(** X6: reading a stream in two adjoining windows gives the same events as
    reading it in one: for a stream that has a log or whose streamId names
    no property of [Object.prototype], [0 <= a <= b] and [c = -1] or
    [b <= c], the events of [getEvents(id, a, b)] followed by those of
    [getEvents(id, b, c)] are the events of [getEvents(id, a, c)]. *)
Theorem getEvents_adjoining (sid : string) (a b c : Z)
    (s : InMemory.Storage) :
  Js.ownOrAbsent (InMemory.store s) sid ->
  0 <= a <= b -> c = -1 \/ b <= c ->
  exists r1 r2,
    InMemory.getEvents sid a b s = Ok r1
    /\ InMemory.getEvents sid b c s = Ok r2
    /\ InMemory.getEvents sid a c s = Ok (r1 ++ r2).
Proof.
  intros Hsid [Ha Hab] Hc. rewrite !getEvents_own by done.
  destruct (InMemory.store s !! sid) as [log|]; [|by exists [], []].
  destruct (Z.eqb_spec b (-1)) as [|_]; [lia|].
  rewrite slice_between by lia.
  assert (drop (Z.to_nat b) log
          = drop (Z.to_nat b - Z.to_nat a) (drop (Z.to_nat a) log)) as Hdrop.
  { rewrite drop_drop. f_equal. lia. }
  destruct (Z.eqb_spec c (-1)) as [->|Hne].
  - rewrite !slice_from by lia. eexists _, _.
    split; [done|]. split; [done|].
    by rewrite Hdrop, take_drop.
  - destruct Hc as [|Hbc]; [done|].
    rewrite !slice_between by lia. eexists _, _.
    split; [done|]. split; [done|].
    rewrite Hdrop, take_take_drop. do 2 f_equal. lia.
Qed.

Lemma getEvents_adjoining_witness :
  exists r1 r2,
    InMemory.getEvents "A" 0 1 threeStored = Ok r1
    /\ InMemory.getEvents "A" 1 (-1) threeStored = Ok r2
    /\ InMemory.getEvents "A" 0 (-1) threeStored = Ok (r1 ++ r2).
Proof.
  apply (getEvents_adjoining "A" 0 1 (-1) threeStored);
    [right; reflexivity|lia|by left].
Defined.

(** ** Storage.setEventToDispatched *)

Lemma markDispatched_idemp (ev : Event) :
  InMemory.markDispatched (InMemory.markDispatched ev)
  = InMemory.markDispatched ev.
Proof. done. Qed.

(** X7: [setEventToDispatched] writes the flag of the one event and
    nothing else: every other field of that event, the header included,
    and every other event are as before; setting an event twice is the same as setting it once, and
    two events can be set in either order. *)
Theorem setEventToDispatched_only_flag (evt other : loc) (h : list Event) :
  let h' := InMemory.setEventToDispatched evt h in
  length h' = length h
  /\ (forall l, l <> evt -> h' !!! l = h !!! l)
  /\ payload (h' !!! evt) = payload (h !!! evt)
  /\ streamId (h' !!! evt) = streamId (h !!! evt)
  /\ streamRevision (h' !!! evt) = streamRevision (h !!! evt)
  /\ commitId (h' !!! evt) = commitId (h !!! evt)
  /\ commitSequence (h' !!! evt) = commitSequence (h !!! evt)
  /\ commitStamp (h' !!! evt) = commitStamp (h !!! evt)
  /\ header (h' !!! evt) = header (h !!! evt)
  /\ InMemory.setEventToDispatched evt h' = h'
  /\ InMemory.setEventToDispatched evt
       (InMemory.setEventToDispatched other h)
     = InMemory.setEventToDispatched other h'.
Proof.
  intros h'. subst h'. unfold InMemory.setEventToDispatched.
  split; [by rewrite length_insert|].
  split; [intros l Hl; by rewrite list_lookup_total_insert_ne|].
  assert (forall f : Event -> option Z,
            (forall ev, f (InMemory.markDispatched ev) = f ev) ->
            f (<[evt := InMemory.markDispatched (h !!! evt)]> h !!! evt)
            = f (h !!! evt)) as Hfield.
  { intros f Hf. rewrite list_lookup_total_insert.
    case_decide; [apply Hf|done]. }
  assert (forall f : Event -> Js.value,
            (forall ev, f (InMemory.markDispatched ev) = f ev) ->
            f (<[evt := InMemory.markDispatched (h !!! evt)]> h !!! evt)
            = f (h !!! evt)) as Hvalue.
  { intros f Hf. rewrite list_lookup_total_insert.
    case_decide; [apply Hf|done]. }
  assert (forall f : Event -> option string,
            (forall ev, f (InMemory.markDispatched ev) = f ev) ->
            f (<[evt := InMemory.markDispatched (h !!! evt)]> h !!! evt)
            = f (h !!! evt)) as Hname.
  { intros f Hf. rewrite list_lookup_total_insert.
    case_decide; [apply Hf|done]. }
  split; [by apply Hvalue|]. split; [by apply Hname|].
  split; [by apply Hfield|]. split; [by apply Hname|].
  split; [by apply Hfield|]. split; [by apply Hfield|].
  split; [by apply Hvalue|]. split.
  - rewrite list_lookup_total_insert.
    case_decide.
    + by rewrite markDispatched_idemp, list_insert_insert_eq.
    + by rewrite list_insert_insert_eq.
  - destruct (decide (evt = other)) as [->|Hne]; [done|].
    rewrite !list_lookup_total_insert_ne by done.
    by rewrite list_insert_insert_ne.
Qed.

(** ** Storage.getAllEvents and Storage.getEventRange *)

Lemma sort_byCommitStamp (h : list Event) (evts : list loc) :
  Js.sort (InMemory.byCommitStamp h) evts ≡ₚ evts
  /\ StronglySorted (stampLe h) (Js.sort (InMemory.byCommitStamp h) evts).
Proof.
  unfold Js.sort.
  set (dec := fun a b => decide (InMemory.byCommitStamp h a b <= 0)).
  split; [apply merge_sort_Permutation|].
  assert (Transitive (fun a b => InMemory.byCommitStamp h a b <= 0))
    as Htrans.
  { intros a b c. unfold InMemory.byCommitStamp. lia. }
  assert (Total (fun a b => InMemory.byCommitStamp h a b <= 0)) as Htotal.
  { intros a b. unfold InMemory.byCommitStamp. lia. }
  pose proof (@StronglySorted_merge_sort _
                (fun a b => InMemory.byCommitStamp h a b <= 0) dec
                Htrans Htotal evts) as Hs.
  induction Hs as [|a l _ IH Hall]; constructor; [done|].
  eapply Forall_impl; [exact Hall|].
  intros b Hab. unfold stampLe. unfold InMemory.byCommitStamp in Hab. lia.
Qed.

Lemma concat_logs (visited : list (string * list loc)) (evts : list loc) :
  foldl (fun evts kv => evts ++ kv.2) evts visited
  = evts ++ allEvents visited.
Proof.
  revert evts. induction visited as [|kv rest IH]; intros evts.
  - by rewrite app_nil_r.
  - simpl. rewrite IH. unfold allEvents. csimpl. by rewrite app_assoc.
Qed.

Lemma elem_of_allEvents (s : InMemory.Storage) (l : loc) :
  l ∈ allEvents (map_to_list (InMemory.store s)) <-> stored s l.
Proof.
  unfold allEvents, stored. rewrite list_elem_of_bind. split.
  - intros ([k log] & Hl & Hkv). apply elem_of_map_to_list in Hkv.
    by exists k, log.
  - intros (k & log & Hk & Hl). exists (k, log).
    split; [done|]. by apply elem_of_map_to_list.
Qed.

(** X8: in whatever order the streams are visited, [getAllEvents] returns
    every stored event, as often as it is stored and no other, in ascending
    order of commitStamp (an event without a stamp counting as stamped
    0). *)
Theorem getAllEvents_sorted (visited : list (string * list loc))
    (h : list Event) (s : InMemory.Storage) :
  visited ≡ₚ map_to_list (InMemory.store s) ->
  exists r,
    InMemory.getAllEventsIn visited h = Ok r
    /\ r ≡ₚ allEvents (map_to_list (InMemory.store s))
    /\ StronglySorted (stampLe h) r
    /\ forall l, l ∈ r <-> stored s l.
Proof.
  intros Hvisit. unfold InMemory.getAllEventsIn.
  rewrite concat_logs, app_nil_l.
  destruct (sort_byCommitStamp h (allEvents visited)) as [Hperm Hsorted].
  assert (Js.sort (InMemory.byCommitStamp h) (allEvents visited)
          ≡ₚ allEvents (map_to_list (InMemory.store s))) as Hall.
  { rewrite Hperm. unfold allEvents. by rewrite Hvisit. }
  eexists. split; [reflexivity|]. split; [done|]. split; [done|].
  intros l. by rewrite Hall, elem_of_allEvents.
Qed.

Lemma getAllEvents_sorted_witness :
  exists r,
    InMemory.getAllEvents (objects fourCommitted) fourStored = Ok r
    /\ StronglySorted (stampLe (objects fourCommitted)) r
    /\ forall l, l ∈ r <-> stored fourStored l.
Proof.
  destruct (getAllEvents_sorted (map_to_list (InMemory.store fourStored))
              (objects fourCommitted) fourStored)
    as (r & Hget & _ & Hsorted & Hin); [done|].
  by exists r.
Defined.

Lemma gatherEvents_prefix (visited : list (string * list loc))
    (evts : list loc) (wanted : Z) :
  exists rest,
    evts ++ allEvents visited
    = InMemory.gatherEvents visited evts wanted ++ rest
    /\ (rest = []
        \/ wanted
           <= Z.of_nat (length (InMemory.gatherEvents visited evts wanted))).
Proof.
  revert evts. induction visited as [|kv more IH]; intros evts; simpl.
  - exists []. split; [done|by left].
  - unfold allEvents. csimpl. rewrite app_assoc.
    destruct (Z.leb_spec wanted (Z.of_nat (length (evts ++ kv.2))))
      as [Hle|Hgt].
    + eexists. split; [reflexivity|by right].
    + apply IH.
Qed.

(** X9: for [index >= 0] and [amount >= 0], in whatever order the streams
    are visited, [getEventRange] returns the events at the positions
    [index <= i < index + amount] of the concatenation of all logs in that
    order, leaving the loop early does not change them, sorted by
    commitStamp; so at most [amount] events, all of them stored. *)
Theorem getEventRange_window (visited : list (string * list loc))
    (index amount : Z) (h : list Event) (s : InMemory.Storage) :
  visited ≡ₚ map_to_list (InMemory.store s) ->
  0 <= index -> 0 <= amount ->
  exists r,
    InMemory.getEventRangeIn visited index amount h = Ok r
    /\ r ≡ₚ take (Z.to_nat amount) (drop (Z.to_nat index) (allEvents visited))
    /\ Z.of_nat (length r) <= amount
    /\ StronglySorted (stampLe h) r
    /\ forall l, l ∈ r -> stored s l.
Proof.
  intros Hvisit Hindex Hamount. unfold InMemory.getEventRangeIn.
  set (gathered := InMemory.gatherEvents visited [] (index + amount)).
  assert (Js.slice index (Some (index + amount)) gathered
          = take (Z.to_nat amount)
                 (drop (Z.to_nat index) (allEvents visited))) as Hwindow.
  { rewrite slice_between by lia.
    replace (Z.to_nat (index + amount) - Z.to_nat index)%nat
      with (Z.to_nat amount) by lia.
    destruct (gatherEvents_prefix visited [] (index + amount))
      as (rest & Hall & Hrest).
    fold gathered in Hall, Hrest. rewrite app_nil_l in Hall. rewrite Hall.
    destruct Hrest as [->|Hlen]; [by rewrite app_nil_r|].
    rewrite drop_app_le by lia.
    rewrite take_app_le; [done|]. rewrite length_drop. lia. }
  rewrite Hwindow.
  destruct (sort_byCommitStamp h
              (take (Z.to_nat amount)
                    (drop (Z.to_nat index) (allEvents visited))))
    as [Hperm Hsorted].
  eexists. split; [reflexivity|]. split; [done|].
  split; [|split; [done|]].
  - rewrite Hperm, length_take. lia.
  - intros l Hl. rewrite Hperm in Hl.
    apply subseteq_take, subseteq_drop in Hl.
    apply elem_of_allEvents. unfold allEvents in *. by rewrite <- Hvisit.
Qed.

Lemma getEventRange_window_witness :
  exists r,
    InMemory.getEventRange 1 2 (objects fourCommitted) fourStored = Ok r
    /\ Z.of_nat (length r) <= 2
    /\ StronglySorted (stampLe (objects fourCommitted)) r.
Proof.
  destruct (getEventRange_window (map_to_list (InMemory.store fourStored))
              1 2 (objects fourCommitted) fourStored)
    as (r & Hget & _ & Hlen & Hsorted & _); [done|lia|lia|].
  by exists r.
Defined.

(** * Further properties of the store *)

(** ** What commit leaves alone *)

Section CommitFrame.

Context {St : Type} `{IStorage St}.
Variable now : nat -> Z.

(** X10: whatever the storage answers, [commit] creates and removes no
    event object, leaves every event outside the batch as it was, and never
    writes the [dispatched] flag, the payload, the streamId or the header
    of any event. *)
Theorem commit_frame (es : EventStream) (w : World St) (l : loc) :
  let after := objects (commit now es w).1.1 in
  length after = length (objects w)
  /\ (l ∉ uncommittedEvents es -> after !!! l = objects w !!! l)
  /\ dispatched (after !!! l) = dispatched (objects w !!! l)
  /\ payload (after !!! l) = payload (objects w !!! l)
  /\ streamId (after !!! l) = streamId (objects w !!! l)
  /\ header (after !!! l) = header (objects w !!! l).
Proof.
  cbv zeta.
  destruct (storage w) as [st|] eqn:Hst;
    [|unfold commit; by rewrite Hst].
  destruct (getId st) as [st1 [e|id|e]] eqn:Hid;
    [unfold commit; by rewrite Hst, Hid| |unfold commit; by rewrite Hst, Hid].
  rewrite (commit_objects now es w st st1 id Hst Hid).
  split; [apply commitLoop_length|].
  split; [intros Hout; by apply commitLoop_other|].
  apply commitLoop_keeps.
Qed.

(** X11: when the storage is missing or [getId] fails, [commit] calls back
    once, with that error, and nothing has happened: the events, the
    EventStream, the dispatcher's queue and the clock are untouched. *)
Theorem commit_aborts (es : EventStream) (w : World St) :
  (storage w = None
   \/ exists st st1 e, storage w = Some st /\ getId st = (st1, Err e)) ->
  exists e,
    (commit now es w).2 = [Err e]
    /\ (storage w = None -> e = configurationError)
    /\ (forall st st1 e', storage w = Some st -> getId st = (st1, Err e') ->
          e = e')
    /\ (commit now es w).1.2 = es
    /\ objects (commit now es w).1.1 = objects w
    /\ dispatcher (commit now es w).1.1 = dispatcher w
    /\ clockReads (commit now es w).1.1 = clockReads w.
Proof.
  intros [Hnone|(st & st1 & e & Hst & Hid)]; unfold commit.
  - rewrite Hnone. exists configurationError. repeat split; try done.
  - rewrite Hst, Hid. exists e. repeat split; try done.
    intros st' st1' e' [= <-]. rewrite Hid. by intros [= _ <-].
Qed.

End CommitFrame.

Lemma commit_aborts_witness :
  (@commit InMemory.Storage idlessStorage tickingClock twoPending.1
           (worldOf twoPending.2)).2 = [Err "no id"]
  /\ (commit tickingClock twoPending.1 unconfigured).2
     = [Err configurationError].
Proof.
  split.
  - destruct (@commit_aborts InMemory.Storage idlessStorage tickingClock
                twoPending.1 (worldOf twoPending.2))
      as (e & Hcalls & _ & Hid & _).
    + right. by exists InMemory.createStorage, InMemory.createStorage, "no id".
    + rewrite Hcalls.
      by rewrite (Hid InMemory.createStorage InMemory.createStorage "no id").
  - destruct (commit_aborts tickingClock twoPending.1 unconfigured)
      as (e & Hcalls & Hnone & _).
    + by left.
    + rewrite Hcalls. by rewrite Hnone.
Defined.

(** ** Store.commit on the in-memory storage *)

(** X12: on the in-memory storage a commit of at least one event, the
    first of a stream that has a log already or whose streamId names no
    property of [Object.prototype], calls back exactly once, with success
    and the EventStream whose uncommitted events were moved behind its
    events; the batch is appended to the stored log of the stream of its
    first event, and no other log and no snapshot changes. *)
Theorem commit_in_memory (now : nat -> Z) (es : EventStream)
    (w : World InMemory.Storage) (s : InMemory.Storage) (e0 : loc)
    (rest : list loc) :
  storage w = Some s ->
  uncommittedEvents es = e0 :: rest ->
  let k := Js.to_key (streamId (objects w !!! e0)) in
  Js.ownOrAbsent (InMemory.store s) k ->
  exists w' es' s',
    commit now es w = (w', es', [Ok es'])
    /\ uncommittedEvents es' = []
    /\ events es' = events es ++ e0 :: rest
    /\ storage w' = Some s'
    /\ InMemory.store s' !! k
       = Some (default [] (InMemory.store s !! k) ++ e0 :: rest)
    /\ (forall k', k' <> k ->
          InMemory.store s' !! k' = InMemory.store s !! k')
    /\ InMemory.snapshots s' = InMemory.snapshots s.
Proof.
  intros Hst Hunc k Hown.
  rewrite (commit_in_memory_batch now es w s Hst);
    [|rewrite Hunc; by intros ? [= <-]].
  cbv zeta.
  set (h1 := (commitLoop now _ _ _ _ _ _).1).
  assert (streamId (h1 !!! e0) = streamId (objects w !!! e0)) as Hsid.
  { subst h1. apply commitLoop_keeps. }
  eexists _, _, _. split; [reflexivity|].
  split; [done|]. split; [simpl; by rewrite Hunc|].
  split; [reflexivity|]. rewrite Hunc.
  rewrite addEvents_store; rewrite Hsid; [|done]. fold k.
  split; [by rewrite lookup_insert_eq|].
  split; [intros k' Hk'; by rewrite lookup_insert_ne|].
  by rewrite (proj1 (addEvents_rest _ _ _)).
Qed.

Lemma commit_in_memory_witness :
  exists w' es' s',
    commit tickingClock twoPending.1 (worldOf twoPending.2)
    = (w', es', [Ok es'])
    /\ storage w' = Some s'
    /\ InMemory.store s' !! "A" = Some [0; 1]%nat.
Proof.
  destruct (commit_in_memory tickingClock twoPending.1
              (worldOf twoPending.2) InMemory.createStorage 0%nat [1%nat]
              eq_refl eq_refl)
    as (w' & es' & s' & Hc & _ & _ & Hst & Hlog & _).
  - right. reflexivity.
  - exists w', es', s'. split; [exact Hc|]. split; [exact Hst|].
    exact Hlog.
Defined.





(** X14: a commit of an EventStream without uncommitted events, on the
    in-memory storage, draws an id and reports success with the stream as
    it is: no event, no log, no queue entry and no clock reading is
    added. *)
Theorem commit_nothing (now : nat -> Z) (es : EventStream)
    (w : World InMemory.Storage) (s : InMemory.Storage) :
  storage w = Some s ->
  uncommittedEvents es = [] ->
  commit now es w
  = (mkWorld (objects w) (Some (InMemory.getId s).1) (dispatcher w)
             (clockReads w), es, [Ok es]).
Proof.
  intros Hst Hunc.
  rewrite (commit_in_memory_batch now es w s Hst);
    [|rewrite Hunc; by intros ? [=]].
  cbv zeta.
  assert (moved es = es) as ->.
  { unfold moved. destruct es as [sid evts unc last]. simpl in *.
    subst unc. by rewrite app_nil_r. }
  rewrite Hunc. simpl. by rewrite app_nil_r.
Qed.

Lemma commit_nothing_witness :
  (commit tickingClock (newEventStream "A" []) (worldOf [])).2
  = [Ok (newEventStream "A" [])].
Proof.
  by rewrite (commit_nothing tickingClock (newEventStream "A" [])
                (worldOf []) InMemory.createStorage eq_refl eq_refl).
Defined.

Lemma fifthWorld_dense :
  dense (objects fifthWorld) (events fifthPending.1).
Proof.
  intros i l Hi. change (events fifthPending.1) with [0; 1; 2; 3]%nat in Hi.
  change (objects fifthWorld)
    with (objects fourCommitted ++ [newEvent "A" (Js.VStr "p4")]).
  destruct i as [|[|[|[|i]]]]; simpl in Hi; try discriminate Hi;
    injection Hi as <-; vm_compute; reflexivity.
Qed.

Lemma commit_keeps_log_dense_witness :
  exists s',
    storage (commit tickingClock fifthPending.1 fifthWorld).1.1 = Some s'
    /\ default [] (InMemory.store s' !! "A") = [0; 1; 2; 3; 4]%nat
    /\ dense (objects (commit tickingClock fifthPending.1 fifthWorld).1.1)
             [0; 1; 2; 3; 4]%nat.
Proof.
  destruct (commit tickingClock fifthPending.1 fifthWorld)
    as [[w' es'] calls] eqn:Hc.
  assert (forall l, l ∈ uncommittedEvents fifthPending.1 ->
            streamId (objects fifthWorld !!! l) = Some "A") as Hsid.
  { intros l Hl. change (l ∈ [4%nat]) in Hl.
    apply list_elem_of_singleton in Hl as ->. vm_compute. reflexivity. }
  assert (events fifthPending.1
          = default [] (InMemory.store fourStored !! "A")) as Hfull
    by (vm_compute; reflexivity).
  assert (Js.ownOrAbsent (InMemory.store fourStored) "A") as Hown
    by (right; reflexivity).
  assert (Z.of_nat (length (events fifthPending.1
                            ++ uncommittedEvents fifthPending.1))
          <= Js.maxExact) as Hbound
    by (vm_compute; discriminate).
  destruct (commit_keeps_log_dense tickingClock "A" fifthPending.1 es'
              fifthWorld w' fourStored calls eq_refl fifthPending_wf
              Hown Hfull fifthWorld_dense Hsid Hbound Hc)
    as (_ & Hevts & s' & Hst & Hlog & Hdense).
  change (events fifthPending.1 ++ uncommittedEvents fifthPending.1)
    with [0; 1; 2; 3; 4]%nat in Hevts.
  rewrite Hevts in Hlog, Hdense.
  exists s'. split; [exact Hst|]. split; [exact Hlog|exact Hdense].
Defined.

(** ** Store.createSnapshot and Store.getFromSnapshot *)

Lemma createSnapshot_in_memory (sid : string) (rev : option Z)
    (d : Js.value) (w : World InMemory.Storage) (s : InMemory.Storage) :
  storage w = Some s ->
  Js.ownOrAbsent (InMemory.snapshots s) sid ->
  createSnapshot sid rev d w
  = (mkWorld (objects w)
       (Some (InMemory.addSnapshot
                (mkSnapshot (Some (InMemory.uuid (InMemory.uuids s))) sid
                            rev d)
                (InMemory.getId s).1).1)
       (dispatcher w) (clockReads w), [Ok tt]).
Proof.
  intros Hst Hown. unfold createSnapshot. rewrite Hst.
  rewrite (getId_answers s).
  change (@addSnapshot InMemory.Storage inMemoryStorage)
    with InMemory.addSnapshot.
  set (snap := mkSnapshot _ sid rev d).
  pose proof (addSnapshot_reply snap (InMemory.getId s).1 Hown) as Hreply.
  destruct (InMemory.addSnapshot snap (InMemory.getId s).1) as [st2 r].
  simpl in Hreply. by subst r.
Qed.

(** X15: on the in-memory storage, for a streamId whose lookups do not end
    at [Object.prototype] and a revision from -1 to below 2^53 (or an
    undefined one), [createSnapshot] succeeds, and
    [getFromSnapshot(streamId, -1)] then hands over that very snapshot,
    with the id drawn for it, whatever older snapshots the stream has,
    together with the stored events from position [revision + 1] on (all
    of them for an undefined revision). *)
Theorem createSnapshot_then_getFromSnapshot (sid : string) (rev : option Z)
    (d : Js.value) (w : World InMemory.Storage) (s : InMemory.Storage) :
  storage w = Some s ->
  Js.ownOrAbsent (InMemory.store s) sid ->
  Js.ownOrAbsent (InMemory.snapshots s) sid ->
  (forall r, rev = Some r -> -1 <= r < Js.maxExact) ->
  let snap := mkSnapshot (Some (InMemory.uuid (InMemory.uuids s))) sid
                         rev d in
  let made := createSnapshot sid rev d w in
  let log := default [] (InMemory.store s !! sid) in
  made.2 = [Ok tt]
  /\ getFromSnapshot sid (-1) made.1
     = [Ok (SnapOf snap,
            Some (newEventStream sid
                    match rev with
                    | Some r => drop (Z.to_nat (r + 1)) log
                    | None => log
                    end))].
Proof.
  intros Hst Hlogs Hsnaps Hrev snap made log.
  subst made. rewrite (createSnapshot_in_memory sid rev d w s Hst Hsnaps).
  fold snap. cbn [fst snd]. split; [done|].
  set (s1 := (InMemory.getId s).1).
  assert (InMemory.getSnapshot sid (-1) (InMemory.addSnapshot snap s1).1
          = Some (Ok (SnapOf snap))) as Hsnap.
  { unfold InMemory.getSnapshot.
    rewrite (get_own _ _
               (default [] (InMemory.snapshots s !! sid) ++ [snap]))
      by (by rewrite addSnapshot_snapshots, lookup_insert_eq).
    cbn [Z.eqb Pos.eqb].
    rewrite length_app. simpl.
    replace (length (default [] (InMemory.snapshots s !! sid)) + 1 - 1)%nat
      with (length (default [] (InMemory.snapshots s !! sid))) by lia.
    by rewrite list_lookup_middle. }
  unfold getFromSnapshot, getEventStream. cbn [storage].
  change (@getSnapshot InMemory.Storage inMemoryStorage)
    with InMemory.getSnapshot.
  change (@getEvents InMemory.Storage inMemoryStorage)
    with InMemory.getEvents.
  rewrite Hsnap.
  rewrite getEvents_own
    by (by rewrite (proj1 (addSnapshot_rest snap s1))).
  rewrite (proj1 (addSnapshot_rest snap s1)).
  change (InMemory.store s1) with (InMemory.store s).
  cbn [Z.eqb Pos.eqb startRevision revision snap]. subst log.
  destruct rev as [r|].
  - specialize (Hrev r eq_refl).
    destruct (InMemory.store s !! sid) as [log|]; simpl.
    + by rewrite slice_from by lia.
    + by rewrite drop_nil.
  - destruct (InMemory.store s !! sid) as [log|]; simpl; [|done].
    by rewrite slice_from, drop_0.
Qed.

Lemma createSnapshot_then_getFromSnapshot_witness :
  exists id,
    getFromSnapshot "A" (-1)
      (createSnapshot "A" (Some 2) (Js.VStr "later") fourCommitted).1
    = [Ok (SnapOf (mkSnapshot (Some id) "A" (Some 2) (Js.VStr "later")),
           Some (newEventStream "A" [3%nat]))].
Proof.
  destruct (createSnapshot_then_getFromSnapshot "A" (Some 2)
              (Js.VStr "later") fourCommitted fourStored)
    as [_ Hget].
  - vm_compute. reflexivity.
  - right. reflexivity.
  - right. reflexivity.
  - intros r [= <-]. unfold Js.maxExact. lia.
  - eexists. etrans; [exact Hget|]. vm_compute. reflexivity.
Defined.

(** X16: for a stream without snapshots whose streamId names no property
    of [Object.prototype], [getFromSnapshot] answers for every [maxRev]
    with the empty object and the EventStream that
    [getEventStream(streamId, 0, maxRev)] loads. *)
Theorem getFromSnapshot_without_snapshots (sid : string) (maxRev : Z)
    (w : World InMemory.Storage) (s : InMemory.Storage) :
  storage w = Some s ->
  InMemory.snapshots s !! sid = None ->
  Js.inherited sid = None ->
  exists stream,
    getEventStream sid 0 maxRev w = Ok stream
    /\ getFromSnapshot sid maxRev w = [Ok (SnapEmpty, Some stream)].
Proof.
  intros Hst Hnone Hsid.
  destruct (getEvents_answers sid 0 maxRev s) as [evts Hevts];
    [by right|].
  assert (getEventStream sid 0 maxRev w = Ok (newEventStream sid evts))
    as Hload.
  { unfold getEventStream. rewrite Hst.
    change (getEvents sid 0 maxRev s)
      with (InMemory.getEvents sid 0 maxRev s).
    by rewrite Hevts. }
  exists (newEventStream sid evts). split; [done|].
  unfold getFromSnapshot. rewrite Hst.
  change (getSnapshot sid maxRev s) with (InMemory.getSnapshot sid maxRev s).
  unfold InMemory.getSnapshot. rewrite (get_missing _ _ Hnone Hsid).
  cbn [startRevision]. by rewrite Hload.
Qed.

Lemma getFromSnapshot_without_snapshots_witness :
  getFromSnapshot "A" 2 (mkWorld threeEvents (Some threeStored) [] O)
  = [Ok (SnapEmpty, Some (newEventStream "A" [0; 1]%nat))].
Proof.
  destruct (getFromSnapshot_without_snapshots "A" 2
              (mkWorld threeEvents (Some threeStored) [] O) threeStored
              eq_refl eq_refl eq_refl) as (stream & Hload & Hget).
  rewrite Hget. vm_compute in Hload. by injection Hload as <-.
Defined.

(** ** EventStream.currentRevision on events without a revision *)

Lemma raiseRevision_number (h : list Event) (rev : option Z) (l : loc) :
  Js.to_number (raiseRevision h rev l)
  = Z.max (Js.to_number rev) (Js.to_number (streamRevision (h !!! l))).
Proof.
  unfold raiseRevision, Js.gt. simpl.
  destruct (Z.ltb_spec (Js.to_number rev)
              (Js.to_number (streamRevision (h !!! l)))); lia.
Qed.

Lemma currentRevision_number_scan (h : list Event) (evts : list loc)
    (acc : option Z) :
  let M := Js.to_number (foldl (raiseRevision h) acc evts) in
  Js.to_number acc <= M
  /\ (forall l, l ∈ evts -> Js.to_number (streamRevision (h !!! l)) <= M)
  /\ (M = Js.to_number acc
      \/ exists l, l ∈ evts /\ Js.to_number (streamRevision (h !!! l)) = M).
Proof.
  revert acc. induction evts as [|l0 rest IH]; intros acc; cbn [foldl].
  - split; [lia|]. split; [|by left].
    intros l Hl. by apply elem_of_nil in Hl.
  - destruct (IH (raiseRevision h acc l0)) as (Hle & Hub & Hatt).
    rewrite raiseRevision_number in Hle, Hatt. cbv zeta.
    split; [lia|]. split.
    + intros l Hl. apply elem_of_cons in Hl as [->|Hl]; [lia|by apply Hub].
    + destruct Hatt as [Heq|(l & Hl & Hr)].
      * destruct (Z.max_spec (Js.to_number acc)
                    (Js.to_number (streamRevision (h !!! l0))))
          as [[_ Hmax]|[_ Hmax]]; rewrite Hmax in Heq.
        -- right. exists l0. split; [by left|done].
        -- by left.
      * right. exists l. split; [by right|done].
Qed.

Section RevisionNumbers.

Context {St : Type} `{IStorage St}.
Variable now : nat -> Z.

(** X18: whatever the loaded events carry, the k-th event of a commit of n
    events receives the revision M + 1 + k, where M is the greatest of -1
    and the streamRevisions of the loaded events read as numbers, a [null]
    streamRevision counting as 0, as long as M + n is at most 2^53, up to
    where the numbers of the code count by one. *)
Theorem commit_counts_from_greatest (es : EventStream) (w w' : World St)
    (st st1 : St) (id : string) (es' : EventStream)
    (calls : list (reply EventStream)) :
  storage w = Some st -> getId st = (st1, Ok id) ->
  wellFormed (objects w) es ->
  commit now es w = (w', es', calls) ->
  exists M,
    -1 <= M
    /\ (forall l, l ∈ events es ->
          Js.to_number (streamRevision (objects w !!! l)) <= M)
    /\ (M = -1
        \/ exists l, l ∈ events es
             /\ Js.to_number (streamRevision (objects w !!! l)) = M)
    /\ (M + Z.of_nat (length (uncommittedEvents es)) <= Js.maxExact ->
        forall k l, uncommittedEvents es !! k = Some l ->
          streamRevision (objects w' !!! l) = Some (M + 1 + Z.of_nat k)).
Proof.
  intros Hst Hid (Hlast & Hnd & Hval & _) Hc.
  pose proof (commit_objects now es w st st1 id Hst Hid) as Hobj.
  rewrite Hc in Hobj. simpl in Hobj. rewrite Hobj.
  destruct (currentRevision_number_scan (objects w) (events es)
              (Some (lastRevision es))) as (Hle & Hub & Hatt).
  fold (currentRevision (objects w) es) in Hle, Hub, Hatt.
  simpl in Hle, Hatt. rewrite Hlast in Hle, Hatt.
  exists (Js.to_number (currentRevision (objects w) es)).
  split; [done|]. split; [done|]. split; [done|].
  intros _ k l Hk.
  by rewrite (commitLoop_sealed now _ _ _ _ _ _ k l Hnd Hval Hk).
Qed.

End RevisionNumbers.

Lemma afterUncommitted_wf :
  wellFormed afterUncommitted.2 afterUncommitted.1.
Proof.
  apply addEvent_wellFormed, newEventStream_wellFormed.
  intros l Hl. change (length threeEvents) with 3%nat.
  apply list_elem_of_lookup in Hl as [i Hi].
  destruct i as [|[|[|i]]]; simpl in Hi; try discriminate Hi;
    injection Hi as <-; lia.
Qed.

Lemma commit_counts_from_greatest_witness :
  streamRevision
    (objects (commit tickingClock afterUncommitted.1
                     afterUncommittedWorld).1.1 !!! 3%nat) = Some 1.
Proof.
  destruct (commit tickingClock afterUncommitted.1 afterUncommittedWorld)
    as [[w' es'] calls] eqn:Hc.
  destruct (commit_counts_from_greatest tickingClock afterUncommitted.1
              afterUncommittedWorld w' threeStored
              (InMemory.getId threeStored).1
              (InMemory.uuid (InMemory.uuids threeStored)) es' calls
              eq_refl (getId_answers threeStored) afterUncommitted_wf Hc)
    as (M & Hlow & Hub & Hatt & Hrev).
  assert (0 <= M) as Hzero.
  { apply (Hub 0%nat). apply list_elem_of_here. }
  assert (M = 0) as ->.
  { destruct Hatt as [->|(l & Hl & Hr)]; [lia|].
    change (events afterUncommitted.1) with [0; 1; 2]%nat in Hl.
    apply list_elem_of_lookup in Hl as [i Hi].
    destruct i as [|[|[|i]]]; simpl in Hi; try discriminate Hi;
      injection Hi as <-; vm_compute in Hr; lia. }
  simpl. apply (Hrev ltac:(vm_compute; discriminate) 0%nat 3%nat eq_refl).
Defined.

(** ** EventStream.addEvent, called repeatedly *)

(** X19: [addEvent] called with the payloads p1, ..., pn puts n new Event
    objects behind the uncommitted events, in the order of the calls; the
    k-th is [new Event(streamId, pk)], with no revision, no commit fields
    and the flag not set; the events the stream holds and the objects that
    existed are as before, and the stream stays well formed. *)
Theorem addEachEvent_in_order (ps : list Js.value) (es : EventStream)
    (h : list Event) :
  let r := addEachEvent ps es h in
  events r.1 = events es
  /\ es_streamId r.1 = es_streamId es
  /\ uncommittedEvents r.1
     = uncommittedEvents es ++ seq (length h) (length ps)
  /\ length r.2 = (length h + length ps)%nat
  /\ (forall l, (l < length h)%nat -> r.2 !!! l = h !!! l)
  /\ (forall (k : nat) p, ps !! k = Some p ->
        r.2 !!! (length h + k)%nat = newEvent (es_streamId es) p)
  /\ (wellFormed h es -> wellFormed r.2 r.1).
Proof.
  revert es h. induction ps as [|p ps IH]; intros es h; simpl.
  - rewrite app_nil_r. split; [done|]. split; [done|]. split; [done|].
    split; [lia|]. split; [done|]. split; [|done].
    intros k p Hk. by rewrite lookup_nil in Hk.
  - unfold addEachEvent in IH. cbn [foldl fst snd].
    specialize (IH (addEvent p es h).1 (addEvent p es h).2).
    cbv zeta in IH.
    replace ((addEvent p es h).1, (addEvent p es h).2)
      with (addEvent p es h) in IH by (by destruct (addEvent p es h)).
    unfold addEachEvent. cbn [foldl fst snd].
    set (r := foldl _ (addEvent p es h) ps) in *.
    destruct IH as (Hevts & Hsid & Hunc & Hlen & Hold & Hnew & Hwf).
    unfold addEvent, alloc in Hevts, Hsid, Hunc, Hlen, Hold, Hnew.
    cbn [fst snd events es_streamId uncommittedEvents] in *.
    rewrite length_app in Hlen, Hunc, Hold, Hnew. simpl in Hlen, Hunc.
    split; [done|]. split; [done|]. split.
    { rewrite Hunc, <- app_assoc. simpl. do 3 f_equal. lia. }
    split; [lia|]. split.
    { intros l Hl. rewrite Hold by (simpl; lia).
      by rewrite lookup_total_app_l. }
    split.
    { intros [|k] q Hk; simpl in Hk.
      - injection Hk as <-. rewrite Nat.add_0_r.
        rewrite Hold by (simpl; lia). by apply list_lookup_total_middle.
      - replace (length h + S k)%nat with (length h + 1 + k)%nat by lia.
        by apply Hnew. }
    intros Hes. apply Hwf. by apply addEvent_wellFormed.
Qed.
